(** * chord-scribe-play: the lyrics-timing core

    A shallow embedding of the lyrics subsystem of the music player:
    the active-line effect, the LRC parser, the LRC upload handler, the
    manual "time|text" editor (parser and serializer) of
    [LyricsViewer], and [handleLyricsUpdate] of [MusicApp].

    Conventions of the embedding.
    - A JavaScript string is the list of its UTF-16 code units ([N]).
    - A JavaScript number is [NaN], a signed infinity, or a finite value
      held as the exact rational it denotes.  Arithmetic on finite values
      ([add], [mul], [div]) and the numeric parsers ([parseInt],
      [parseFloat]) are exact: the rounding of a result to the nearest
      binary64 value, overflow to an infinity and the sign of zero are
      not modelled.  [rem], [floor], the comparisons and [toFixed] are
      exact in binary64 as well.  The statements about the program
      therefore speak of order, sign, counts, strings and of the
      expression the code evaluates; where one names the value of a
      sum, a quotient or a parsed decimal, the code holds that value
      rounded to binary64 at each operation.
    - The built-ins the components call ([split], [trim], [parseInt],
      [parseFloat], [toFixed], ...) follow ECMAScript. *)

From Stdlib Require Import String Ascii.
From Stdlib Require Import ZArith NArith QArith Qreduction Qround.
From Stdlib Require Import List Bool Lia Lqa Permutation Sorted.
Import ListNotations.

(** ** ECMAScript values and built-ins *)

Module JS.

(** *** Strings *)

Abbreviation char := N (only parsing).
Abbreviation jsstring := (list N) (only parsing).

(** A literal of the source, as code units. *)
Definition lit (s : string) : jsstring :=
  map N_of_ascii (list_ascii_of_string s).
Arguments lit s%_string.

Fixpoint eqb (s t : jsstring) : bool :=
  match s, t with
  | [], [] => true
  | c :: s', d :: t' => N.eqb c d && eqb s' t'
  | _, _ => false
  end.

(** LineTerminator: LF, CR, LS, PS. *)
Definition is_line_terminator (c : char) : bool :=
  (N.eqb c 0x0A || N.eqb c 0x0D || N.eqb c 0x2028 || N.eqb c 0x2029)%N.

(** WhiteSpace: TAB, VT, FF, ZWNBSP and the space separators (Zs). *)
Definition is_white_space (c : char) : bool :=
  (N.eqb c 0x09 || N.eqb c 0x0B || N.eqb c 0x0C || N.eqb c 0xFEFF
   || N.eqb c 0x20 || N.eqb c 0xA0 || N.eqb c 0x1680
   || (N.leb 0x2000 c && N.leb c 0x200A)
   || N.eqb c 0x202F || N.eqb c 0x205F || N.eqb c 0x3000)%N.

(** What [trim] and the numeric parsers strip. *)
Definition is_trimmed_char (c : char) : bool :=
  is_white_space c || is_line_terminator c.

Fixpoint trimStart (s : jsstring) : jsstring :=
  match s with
  | [] => []
  | c :: r => if is_trimmed_char c then trimStart r else s
  end.

Definition trimEnd (s : jsstring) : jsstring := rev (trimStart (rev s)).

Definition trim (s : jsstring) : jsstring := trimEnd (trimStart s).

(** [s.split(sep)] for a one-character separator. *)
Fixpoint split (sep : char) (s : jsstring) : list jsstring :=
  match s with
  | [] => [[]]
  | c :: r =>
      if N.eqb c sep then [] :: split sep r
      else match split sep r with
           | h :: t => (c :: h) :: t
           | [] => [[c]]
           end
  end.

(** [a.join(sep)] for an array of strings. *)
Fixpoint join (sep : jsstring) (a : list jsstring) : jsstring :=
  match a with
  | [] => []
  | [s] => s
  | s :: r => s ++ sep ++ join sep r
  end.

(** [s.includes(c)] for a one-character needle. *)
Definition includes (c : char) (s : jsstring) : bool :=
  existsb (N.eqb c) s.

Definition endsWith (s suffix : jsstring) : bool :=
  (length suffix <=? length s)%nat
  && eqb (skipn (length s - length suffix) s) suffix.

(** [s.padStart(width, c)] for a one-character filler. *)
Definition padStart (width : nat) (c : char) (s : jsstring) : jsstring :=
  repeat c (width - length s) ++ s.

(** Truthiness of a string: non-empty. *)
Definition truthy (s : jsstring) : bool :=
  match s with [] => false | _ => true end.

(** *** Numbers *)

Inductive number : Type :=
| NaN
| Inf (negative : bool)
| Fin (q : Q).

Definition of_Z (z : Z) : number := Fin (inject_Z z).
Definition of_nat (n : nat) : number := of_Z (Z.of_nat n).

Definition Qneg (q : Q) : bool := negb (Qle_bool 0 q).
Definition Qzero (q : Q) : bool := Qeq_bool q 0.

Definition neg (x : number) : number :=
  match x with
  | NaN => NaN
  | Inf s => Inf (negb s)
  | Fin q => Fin (Qred (- q))
  end.

(** [x + y], [x * y] and [x / y].  On finite operands the result is the
    exact sum, product or quotient; the code rounds it to binary64. *)
Definition add (x y : number) : number :=
  match x, y with
  | NaN, _ | _, NaN => NaN
  | Inf a, Inf b => if Bool.eqb a b then Inf a else NaN
  | Inf a, Fin _ | Fin _, Inf a => Inf a
  | Fin p, Fin q => Fin (Qred (p + q))
  end.

Definition sub (x y : number) : number := add x (neg y).

Definition mul (x y : number) : number :=
  match x, y with
  | NaN, _ | _, NaN => NaN
  | Inf a, Inf b => Inf (xorb a b)
  | Inf a, Fin q | Fin q, Inf a =>
      if Qzero q then NaN else Inf (xorb a (Qneg q))
  | Fin p, Fin q => Fin (Qred (p * q))
  end.

Definition div (x y : number) : number :=
  match x, y with
  | NaN, _ | _, NaN => NaN
  | Inf _, Inf _ => NaN
  | Inf a, Fin q => Inf (xorb a (Qneg q))
  | Fin _, Inf _ => Fin 0
  | Fin p, Fin q =>
      if Qzero q then (if Qzero p then NaN else Inf (Qneg p))
      else Fin (Qred (p / q))
  end.

(** Truncation toward zero. *)
Definition Qtrunc (q : Q) : Z :=
  if Qle_bool 0 q then Qfloor q else Qceiling q.

(** [x % y]: the remainder has the sign of the dividend. *)
Definition rem (x y : number) : number :=
  match x, y with
  | NaN, _ | _, NaN => NaN
  | Inf _, _ => NaN
  | Fin p, Inf _ => Fin p
  | Fin p, Fin q =>
      if Qzero q then NaN
      else Fin (Qred (p - q * inject_Z (Qtrunc (p / q))))
  end.

Definition floor (x : number) : number :=
  match x with
  | Fin q => of_Z (Qfloor q)
  | _ => x
  end.

(** [x < y] and [x >= y]; every comparison with [NaN] is false. *)
Definition lt (x y : number) : bool :=
  match x, y with
  | NaN, _ | _, NaN => false
  | Inf a, Inf b => a && negb b
  | Inf a, Fin _ => a
  | Fin _, Inf b => negb b
  | Fin p, Fin q => negb (Qle_bool q p)
  end.

Definition ge (x y : number) : bool :=
  match x, y with
  | NaN, _ | _, NaN => false
  | Inf a, Inf b => negb a || b
  | Inf a, Fin _ => negb a
  | Fin _, Inf b => b
  | Fin p, Fin q => Qle_bool q p
  end.

(** *** Numeric parsing *)

Definition is_digit (c : char) : bool := (N.leb 48 c && N.leb c 57)%N.

Definition digit_val (c : char) : Z := Z.of_N (c - 48).

(** Value in [radix] of a digit character, if it is one. *)
Definition radix_digit (radix : Z) (c : char) : option Z :=
  let v :=
    if is_digit c then Some (Z.of_N (c - 48))
    else if (N.leb 97 c && N.leb c 122)%N then Some (Z.of_N (c - 87))
    else if (N.leb 65 c && N.leb c 90)%N then Some (Z.of_N (c - 55))
    else None in
  match v with
  | Some d => if (d <? radix)%Z then Some d else None
  | None => None
  end.

(** Longest prefix of digits in [radix]: the value accumulated so far,
    whether a digit was seen, and the rest of the string. *)
Fixpoint scan_digits (radix : Z) (acc : Z) (seen : bool) (s : jsstring)
  : Z * bool * jsstring :=
  match s with
  | [] => (acc, seen, [])
  | c :: r =>
      match radix_digit radix c with
      | Some d => scan_digits radix (acc * radix + d)%Z true r
      | None => (acc, seen, s)
      end
  end.

Definition strip_sign (s : jsstring) : bool * jsstring :=
  match s with
  | c :: r =>
      if N.eqb c 45 then (true, r)
      else if N.eqb c 43 then (false, r)
      else (false, s)
  | [] => (false, [])
  end.

(** [parseInt(s)] with no radix argument.  The value is the exact
    integer of the digits, which is what the code returns up to
    [2^53]. *)
Definition parseInt (s : jsstring) : number :=
  let (negative, s1) := strip_sign (trimStart s) in
  let (radix, s2) :=
    match s1 with
    | z :: x :: r =>
        if N.eqb z 48 && (N.eqb x 120 || N.eqb x 88) then (16%Z, r)
        else (10%Z, s1)
    | _ => (10%Z, s1)
    end in
  match scan_digits radix 0 false s2 with
  | (v, true, _) => of_Z (if negative then - v else v)
  | (_, false, _) => NaN
  end.

Fixpoint starts_with (p s : jsstring) : bool :=
  match p, s with
  | [], _ => true
  | c :: p', d :: s' => N.eqb c d && starts_with p' s'
  | _ :: _, [] => false
  end.

(** The value [m * 10^e]. *)
Definition scale10 (m e : Z) : Q :=
  if (0 <=? e)%Z then inject_Z (m * 10 ^ e)
  else Qred (m # Z.to_pos (10 ^ (- e))).

(** ExponentPart: [e] or [E], an optional sign, at least one digit;
    zero when the string does not start with one. *)
Definition scan_exponent (s : jsstring) : Z :=
  match s with
  | c :: r =>
      if N.eqb c 101 || N.eqb c 69 then
        let (negative, r') := strip_sign r in
        match scan_digits 10 0 false r' with
        | (v, true, _) => if negative then (- v)%Z else v
        | (_, false, _) => 0%Z
        end
      else 0%Z
  | [] => 0%Z
  end.

(** [parseFloat(s)]: the longest prefix that is a StrDecimalLiteral.
    The value is the exact decimal; the code returns the binary64 value
    nearest to it. *)
Definition parseFloat (s : jsstring) : number :=
  let (negative, s1) := strip_sign (trimStart s) in
  let signed (q : Q) := Fin (Qred (if negative then - q else q)) in
  if starts_with (lit "Infinity") s1 then Inf negative
  else
    match scan_digits 10 0 false s1 with
    | (ip, iseen, r1) =>
        match r1 with
        | 46%N :: r2 =>
            match scan_digits 10 ip false r2 with
            | (m, fseen, r3) =>
                if iseen || fseen then
                  let fl := Z.of_nat (length r2 - length r3) in
                  signed (scale10 m (scan_exponent r3 - fl))
                else NaN
            end
        | _ =>
            if iseen then signed (scale10 ip (scan_exponent r1))
            else NaN
        end
    end.

(** *** Number to string *)

Definition digit_char (d : Z) : char := Z.to_N (48 + d).

(** Decimal digits of a natural number, most significant first. *)
Fixpoint digits_fuel (fuel : nat) (n : Z) (acc : jsstring) : jsstring :=
  match fuel with
  | O => acc
  | S f =>
      let acc' := digit_char (n mod 10) :: acc in
      if (n <? 10)%Z then acc' else digits_fuel f (n / 10) acc'
  end.

Definition digits (n : Z) : jsstring :=
  digits_fuel (S (Z.to_nat (Z.log2 n))) n [].

Fixpoint drop_zeros (s : jsstring) : jsstring :=
  match s with
  | c :: r => if N.eqb c 48 then drop_zeros r else s
  | [] => []
  end.

(** Number::toString on a non-negative integer: plain digits below
    10^21 (at most 21 digits), exponent form from there on.  Every digit
    of [n] is printed, which is what the code prints for an integer
    below [2^53] and for a power of ten; the lemmas apply it below
    [2^53] only. *)
Definition toString_unsigned (n : Z) : jsstring :=
  let ds := digits n in
  let len := length ds in
  if (len <=? 21)%nat then ds
  else
    let e := lit "e+" ++ digits (Z.of_nat (len - 1)) in
    match rev (drop_zeros (rev ds)) with
    | [] => ds
    | [d] => d :: e
    | d :: r => d :: 46%N :: r ++ e
    end.

Definition toString_integral (z : Z) : jsstring :=
  if (z <? 0)%Z then 45%N :: toString_unsigned (- z)
  else toString_unsigned z.

(** Number::toString.  A finite value is rendered as the integer it
    is: the components apply it to results of [Math.floor] only. *)
Definition toString (x : number) : jsstring :=
  match x with
  | NaN => lit "NaN"
  | Inf s => if s then lit "-Infinity" else lit "Infinity"
  | Fin q => toString_integral (Qfloor q)
  end.

(** [x.toFixed(f)] for [f >= 1]: the integer [n] nearest to
    [x * 10^f], the larger one on a tie, printed with [f] decimals.
    From 10^21 on the result is [toString x]; a binary64 value of
    that size is integral. *)
Definition toFixed (f : nat) (x : number) : jsstring :=
  match x with
  | Fin q =>
      let a := if Qneg q then (- q)%Q else q in
      let s := if Qneg q then [45%N] else [] in
      if Qle_bool (inject_Z (10 ^ 21)) a then s ++ toString (Fin a)
      else
        let n := Qfloor (a * inject_Z (10 ^ Z.of_nat f) + (1 # 2)) in
        let m := digits n in
        let m := if (length m <=? f)%nat
                 then repeat 48%N (f + 1 - length m) ++ m else m in
        let k := length m in
        s ++ firstn (k - f) m ++ 46%N :: skipn (k - f) m
  | _ => toString x
  end.

(** *** Arrays *)

(** [a.forEach((x, index) => body)] where the body updates a state. *)
Fixpoint forEach_from {A St : Type} (body : A -> nat -> St -> St)
  (a : list A) (index : nat) (st : St) : St :=
  match a with
  | [] => st
  | x :: r => forEach_from body r (S index) (body x index st)
  end.

Definition forEach {A St : Type} (body : A -> nat -> St -> St)
  (a : list A) (st : St) : St := forEach_from body a 0 st.

(** [a.push(x)]. *)
Definition push {A : Type} (a : list A) (x : A) : list A := a ++ [x].

(** [a.map((x, index) => f)]. *)
Fixpoint map_from {A B : Type} (f : A -> nat -> B) (a : list A)
  (index : nat) : list B :=
  match a with
  | [] => []
  | x :: r => f x index :: map_from f r (S index)
  end.

Definition map_indexed {A B : Type} (f : A -> nat -> B) (a : list A)
  : list B := map_from f a 0.

(** [a.findIndex((x, index) => p)]: the first index where [p] holds,
    [-1] when there is none. *)
Fixpoint findIndex_from {A : Type} (p : A -> nat -> bool) (a : list A)
  (index : nat) : Z :=
  match a with
  | [] => (-1)%Z
  | x :: r =>
      if p x index then Z.of_nat index else findIndex_from p r (S index)
  end.

Definition findIndex {A : Type} (p : A -> nat -> bool) (a : list A) : Z :=
  findIndex_from p a 0.

(** [a.sort(cmp)]: the sort is stable; [x] goes after [y] only when
    [cmp x y > 0] (a [NaN] result counts as zero).  Modelled by a
    stable insertion sort. *)
Fixpoint sort_insert {A : Type} (cmp : A -> A -> number) (x : A)
  (a : list A) : list A :=
  match a with
  | [] => [x]
  | y :: r =>
      if lt (Fin 0) (cmp x y) then y :: sort_insert cmp x r
      else x :: a
  end.

Definition sort {A : Type} (cmp : A -> A -> number) (a : list A)
  : list A := fold_right (sort_insert cmp) [] a.

End JS.

(** ** LyricsViewer *)

Module LyricsViewer.
Import JS.

Record LyricLine : Type := { time : number; text : jsstring }.

(** Component state ([useState]). *)
Record state : Type := {
  editMode : bool;
  lyricsText : jsstring;
  currentLineIndex : Z
}.

Definition initial : state :=
  {| editMode := false; lyricsText := []; currentLineIndex := (-1)%Z |}.

(** What a handler does besides updating the component state. *)
Inductive effect : Type :=
| toast_success (message : jsstring)
| toast_error (message : jsstring)
| lyrics_update (lyrics : list LyricLine).

(** [onLyricsUpdate?.(lyrics)]: the prop is optional. *)
Definition onLyricsUpdate (provided : bool) (lyrics : list LyricLine)
  : list effect :=
  if provided then [lyrics_update lyrics] else [].

(** *** Find current lyric line based on time *)

Definition is_active (lyrics : list LyricLine) (currentTime : number)
  (line : LyricLine) (index : nat) : bool :=
  let nextLine := nth_error lyrics (index + 1) in
  ge currentTime (time line)
  && match nextLine with
     | None => true
     | Some next => lt currentTime (time next)
     end.

Definition activeIndex (lyrics : list LyricLine) (currentTime : number)
  : Z := findIndex (is_active lyrics currentTime) lyrics.

(** The effect run when [currentTime] or [lyrics] changes. *)
Definition activeLineEffect (lyrics : option (list LyricLine))
  (currentTime : number) (st : state) : state :=
  match lyrics with
  | None => st
  | Some l =>
      {| editMode := editMode st;
         lyricsText := lyricsText st;
         currentLineIndex := activeIndex l currentTime |}
  end.

(** *** parseLRCFile *)

Fixpoint take_dot (s : jsstring) : jsstring :=
  match s with
  | c :: r => if is_line_terminator c then [] else c :: take_dot r
  | [] => []
  end.

(** The pattern of [parseLRCFile] at the head of [s]: an opening
    bracket, two digits, a colon, two digits, a dot, two digits, a
    closing bracket, then any run of characters other than line
    terminators (the dot of a regular expression); the four captured
    groups. *)
Definition tag_here (s : jsstring)
  : option (jsstring * jsstring * jsstring * jsstring) :=
  match s with
  | o :: m1 :: m2 :: c :: s1 :: s2 :: d :: h1 :: h2 :: e :: rest =>
      if N.eqb o 91 && is_digit m1 && is_digit m2 && N.eqb c 58
         && is_digit s1 && is_digit s2 && N.eqb d 46
         && is_digit h1 && is_digit h2 && N.eqb e 93
      then Some ([m1; m2], [s1; s2], [h1; h2], take_dot rest)
      else None
  | _ => None
  end.

(** [line.match(...)]: the pattern is not anchored, the leftmost
    position where it matches is taken. *)
Fixpoint lrc_match (line : jsstring)
  : option (jsstring * jsstring * jsstring * jsstring) :=
  match tag_here line with
  | Some groups => Some groups
  | None =>
      match line with
      | [] => None
      | _ :: r => lrc_match r
      end
  end.

Definition parseLRCFile (content : jsstring) : list LyricLine :=
  let lines := split 10 content in
  let lyricsArray :=
    forEach (fun line (_ : nat) lyricsArray =>
      match lrc_match line with
      | Some (g1, g2, g3, g4) =>
          let minutes := parseInt g1 in
          let seconds := parseInt g2 in
          let centiseconds := parseInt g3 in
          let text := trim g4 in
          let time :=
            add (add (mul minutes (of_Z 60)) seconds)
                (div centiseconds (of_Z 100)) in
          push lyricsArray {| time := time; text := text |}
      | None => lyricsArray
      end) lines [] in
  sort (fun a b => sub (time a) (time b)) lyricsArray.

(** *** handleLRCUpload *)

(** The selected file: its name and what [readAsText] delivers to
    [onload] ([None]: the read fails and [onload] never runs). *)
Record File : Type := { name : jsstring; contents : option jsstring }.

Definition handleLRCUpload (hook : bool) (file : option File)
  : list effect :=
  match file with
  | Some f =>
      if endsWith (name f) (lit ".lrc") then
        match contents f with
        | Some content =>
            let parsedLyrics := parseLRCFile content in
            onLyricsUpdate hook parsedLyrics
            ++ [toast_success (lit "Lyrics uploaded successfully!")]
        | None => []
        end
      else [toast_error (lit "Please upload a valid .lrc file")]
  | None => [toast_error (lit "Please upload a valid .lrc file")]
  end.

(** *** handleManualEdit *)

(** Parse manual lyrics (simple format: time|text). *)
Definition parseManual (lyricsText : jsstring) : list LyricLine :=
  let lines :=
    filter (fun line => truthy (trim line)) (split 10 lyricsText) in
  forEach (fun line index parsedLyrics =>
    match split 124 line with
    | [part0; part1] =>
        let timeStr := trim part0 in
        let text := trim part1 in
        let time :=
          if includes 58 timeStr then
            match split 58 timeStr with
            | minutes :: seconds :: _ =>
                add (mul (parseInt minutes) (of_Z 60)) (parseFloat seconds)
            | _ => NaN
            end
          else parseFloat timeStr in
        push parsedLyrics {| time := time; text := text |}
    | _ =>
        push parsedLyrics
          {| time := mul (of_nat index) (of_Z 3); text := trim line |}
    end) lines [].

Definition handleManualEdit (hook : bool) (st : state)
  : state * list effect :=
  let effects :=
    if editMode st then
      onLyricsUpdate hook (parseManual (lyricsText st))
      ++ [toast_success (lit "Lyrics updated!")]
    else [] in
  ({| editMode := negb (editMode st);
      lyricsText := lyricsText st;
      currentLineIndex := currentLineIndex st |}, effects).

(** *** The Edit button *)

Definition serializeLine (l : LyricLine) : jsstring :=
  toString (floor (div (time l) (of_Z 60)))
  ++ 58%N :: padStart 5 48%N (toFixed 2 (rem (time l) (of_Z 60)))
  ++ 124%N :: text l.

(** [lyrics?.map(...).join('\n') || '']. *)
Definition editBuffer (lyrics : option (list LyricLine)) : jsstring :=
  match lyrics with
  | Some l => join [10%N] (map serializeLine l)
  | None => []
  end.

Definition handleEditClick (lyrics : option (list LyricLine))
  (st : state) : state :=
  {| editMode := true;
     lyricsText := editBuffer lyrics;
     currentLineIndex := currentLineIndex st |}.

End LyricsViewer.

(** ** MusicApp *)

Module MusicApp.
Import JS.
Export LyricsViewer.

Record Song : Type := {
  id : jsstring;
  title : jsstring;
  artist : jsstring;
  src : jsstring;
  lyrics : option (list LyricLine)
}.

(** Sample songs with lyrics for demonstration. *)
Definition sampleSongs : list Song :=
  [ {| id := lit "1";
       title := lit "Sample Song 1";
       artist := lit "Demo Artist";
       src := lit "/audio/sample1.mp3";
       lyrics := Some
         [ {| time := of_Z 0; text := lit "Welcome to our music player" |};
           {| time := of_Z 3;
              text := lit "This is a synchronized lyric line" |};
           {| time := of_Z 6;
              text := lit "The lyrics follow the audio timing" |};
           {| time := of_Z 9; text := lit "Just like Spotify!" |};
           {| time := of_Z 12;
              text := lit "Upload your own songs and lyrics" |} ] |};
    {| id := lit "2";
       title := lit "Another Song";
       artist := lit "Another Artist";
       src := lit "/audio/sample2.mp3";
       lyrics := Some
         [ {| time := of_Z 0; text := lit "This is another sample song" |};
           {| time := of_Z 4;
              text := lit "With different lyrics and timing" |};
           {| time := of_Z 8;
              text := lit "You can add your own music files" |};
           {| time := of_Z 12; text := lit "And create custom lyrics" |} ] |} ].

(** The state the coordinator owns that the lyrics flow touches. *)
Record app : Type := {
  songs : list Song;
  currentSongIndex : nat
}.

Definition start : app := {| songs := sampleSongs; currentSongIndex := 0 |}.

(** [{ ...song, lyrics }]. *)
Definition with_lyrics (song : Song) (l : list LyricLine) : Song :=
  {| id := id song; title := title song; artist := artist song;
     src := src song; lyrics := Some l |}.

Definition handleLyricsUpdate (a : app) (l : list LyricLine) : app :=
  {| songs :=
       map_indexed (fun song index =>
         if (index =? currentSongIndex a)%nat then with_lyrics song l
         else song) (songs a);
     currentSongIndex := currentSongIndex a |}.

(** [currentSong?.lyrics], the [lyrics] prop of the viewer. *)
Definition currentLyrics (a : app) : option (list LyricLine) :=
  match nth_error (songs a) (currentSongIndex a) with
  | Some song => lyrics song
  | None => None
  end.

(** The viewer is mounted with [onLyricsUpdate={handleLyricsUpdate}];
    toasts do not touch the application state. *)
Definition run (a : app) (e : effect) : app :=
  match e with
  | lyrics_update l => handleLyricsUpdate a l
  | _ => a
  end.

Definition upload (a : app) (file : option File) : app :=
  fold_left run (handleLRCUpload true file) a.

Definition save (a : app) (st : state) : app :=
  fold_left run (snd (handleManualEdit true st)) a.

End MusicApp.


(** ** Vocabulary of the statements *)

Import JS LyricsViewer MusicApp.

(** A lyric line with an integral time, for examples. *)
Definition line_at (t : Z) (s : string) : LyricLine :=
  {| time := of_Z t; text := lit s |}.

(** Non-decreasing order of time, with the comparison of the source. *)
Definition time_le (a b : LyricLine) : Prop := ge (time b) (time a) = true.

Definition ascending (l : list LyricLine) : Prop := Sorted time_le l.

(** The window condition of the resolver, in the words of the
    specification: [currentTime >= lyrics[i].time], and [i] is the last
    index or [currentTime < lyrics[i+1].time]. *)
Definition in_window (lyrics : list LyricLine) (currentTime : number)
  (i : nat) : Prop :=
  exists line,
    nth_error lyrics i = Some line
    /\ ge currentTime (time line) = true
    /\ (S i = length lyrics
        \/ exists next, nth_error lyrics (S i) = Some next
                        /\ lt currentTime (time next) = true).

(** The comparator given to [sort] in [parseLRCFile]. *)
Definition by_time (a b : LyricLine) : number := sub (time a) (time b).

(** An entry whose time is a finite, non-negative number. *)
Definition proper_time (e : LyricLine) : Prop :=
  exists q, time e = Fin q /\ (0 <= q)%Q.

(** The tag [[mm:ss.xx]] with the given digits. *)
Definition lrc_tag (m1 m2 s1 s2 h1 h2 : char) : jsstring :=
  [91; m1; m2; 58; s1; s2; 46; h1; h2; 93]%N.

Definition two_digits (a b : char) : Z := 10 * digit_val a + digit_val b.

(** [minutes*60 + seconds + hundredths/100]. *)
Definition lrc_time (m1 m2 s1 s2 h1 h2 : char) : number :=
  Fin (Qred (inject_Z (two_digits m1 m2) * 60 + inject_Z (two_digits s1 s2)
             + inject_Z (two_digits h1 h2) / 100)).

(** A tag with digits [m1 .. h2] starts at offset [k] of [line] and is
    followed by [rest]. *)
Definition tag_at (line : jsstring) (k : nat) (m1 m2 s1 s2 h1 h2 : char)
  (rest : jsstring) : Prop :=
  forallb is_digit [m1; m2; s1; s2; h1; h2] = true
  /\ (k <= length line)%nat
  /\ skipn k line = lrc_tag m1 m2 s1 s2 h1 h2 ++ rest.

Definition has_tag_at (line : jsstring) (k : nat) : Prop :=
  exists m1 m2 s1 s2 h1 h2 rest, tag_at line k m1 m2 s1 s2 h1 h2 rest.

(** What one line of an LRC file contributes: nothing when it holds no
    tag; otherwise one entry, timed by its leftmost tag, whose text is
    what follows that tag up to the first line terminator, trimmed. *)
Definition line_yields (line : jsstring) (r : option LyricLine) : Prop :=
  match r with
  | None => forall k, ~ has_tag_at line k
  | Some e =>
      exists k m1 m2 s1 s2 h1 h2 rest,
        tag_at line k m1 m2 s1 s2 h1 h2 rest
        /\ (forall j, (j < k)%nat -> ~ has_tag_at line j)
        /\ time e = lrc_time m1 m2 s1 s2 h1 h2
        /\ text e = trim (take_dot rest)
  end.

Definition option_list {A : Type} (o : option A) : list A :=
  match o with Some x => [x] | None => [] end.

(** What the loop body of [parseLRCFile] pushes for one line. *)
Definition lrc_entry (line : jsstring) : option LyricLine :=
  match lrc_match line with
  | Some (g1, g2, g3, g4) =>
      Some {| time := add (add (mul (parseInt g1) (of_Z 60)) (parseInt g2))
                          (div (parseInt g3) (of_Z 100));
              text := trim g4 |}
  | None => None
  end.

(** A whitespace-only line. *)
Definition blank (line : jsstring) : bool := forallb is_trimmed_char line.

(** The lines the freeform parser keeps, in input order. *)
Definition retained (buffer : jsstring) : list jsstring :=
  filter (fun line => negb (blank line)) (split 10 buffer).

(** The time a time expression stands for: [minutes*60 + seconds] when
    it contains a colon, a plain number of seconds otherwise. *)
Definition freeform_time (expr : jsstring) : number :=
  if includes 58 expr then
    match split 58 expr with
    | minutes :: seconds :: _ =>
        add (mul (parseInt minutes) (of_Z 60)) (parseFloat seconds)
    | _ => NaN
    end
  else parseFloat expr.

(** The entry of the retained line at position [index]. *)
Definition freeform_entry (index : nat) (line : jsstring) : LyricLine :=
  match split 124 line with
  | [expr; words] => {| time := freeform_time (trim expr); text := trim words |}
  | _ => {| time := mul (of_nat index) (of_Z 3); text := trim line |}
  end.

(** A string without the given character. *)
Definition free_of (c : char) (s : jsstring) : Prop := includes c s = false.

(** The value of a run of decimal digits read after the value [v]. *)
Definition decimal_value (v : Z) (s : jsstring) : Z :=
  fold_left (fun a c => (a * 10 + digit_val c)%Z) s v.

(** [t] rounded to hundredths, a tie going up: in the exact arithmetic
    of the model, the time that comes back from the edit buffer. *)
Definition round_hundredths (t : Q) : Q :=
  Qred (Qfloor (t * 100 + (1 # 2)) # 100).

(** An entry that the edit buffer can carry when its time is below
    [bound]: a finite, non-negative time, and a text without [|],
    without a line feed, and without whitespace at either end. *)
Definition editable_below (bound : Z) (e : LyricLine) : Prop :=
  (exists t, time e = Fin t /\ (0 <= t)%Q /\ (t < inject_Z bound)%Q)
  /\ free_of 124 (text e) /\ free_of 10 (text e)
  /\ trim (text e) = text e.

(** Up to [2^53] seconds: the minutes are printed in plain digits. *)
Definition serializable : LyricLine -> Prop := editable_below (2 ^ 53 + 1).

(** Times below [2^53] seconds, the range in which binary64 holds every
    whole number of seconds. *)
Definition editable : LyricLine -> Prop := editable_below (2 ^ 53).

(** The entry with its time rounded to hundredths (exact arithmetic). *)
Definition rounded (e : LyricLine) : LyricLine :=
  {| time := match time e with
             | Fin t => Fin (round_hundredths t)
             | x => x
             end;
     text := text e |}.

(** What [toFixed 2] prints for a value whose hundredths round to [n]. *)
Definition fixed2 (n : Z) : jsstring :=
  let m := digits n in
  let m := if (length m <=? 2)%nat
           then repeat 48%N (2 + 1 - length m) ++ m else m in
  let k := length m in
  firstn (k - 2) m ++ 46%N :: skipn (k - 2) m.

(** The seconds field of a serialized line whose hundredths are [n]. *)
Definition seconds_field (n : Z) : jsstring := padStart 5 48 (fixed2 n).

(** The minutes the serializer prints for the time [t]:
    [Math.floor(t / 60)]. *)
Definition minutes_of (t : Q) : Z := Qfloor (t / inject_Z 60).

(** The hundredths [toFixed(2)] prints for the seconds [t % 60]: the
    whole number nearest to a hundred times the seconds, the larger one
    on a tie. *)
Definition hundredths_of (t : Q) : Z :=
  Qfloor ((t - inject_Z 60 * inject_Z (minutes_of t)) * inject_Z 100
          + (1 # 2)).

(** The time the freeform parser computes from the two fields printed
    for [t]: the minutes times 60, plus the seconds field read by
    [parseFloat]. *)
Definition reread_time (t : Q) : number :=
  add (mul (of_Z (minutes_of t)) (of_Z 60))
      (parseFloat (seconds_field (hundredths_of t))).

(** The entry with its time read back from its printed fields. *)
Definition reread (e : LyricLine) : LyricLine :=
  {| time := match time e with
             | Fin t => reread_time t
             | x => x
             end;
     text := text e |}.

Definition number_eqb (x y : number) : bool :=
  match x, y with
  | NaN, NaN => true
  | Inf a, Inf b => Bool.eqb a b
  | Fin p, Fin q => Z.eqb (Qnum p) (Qnum q) && Pos.eqb (Qden p) (Qden q)
  | _, _ => false
  end.

(** The seconds field for [n] hundredths holds no separator of the
    buffer, ends in a digit, and reads back as [n / 100]. *)
Definition seconds_field_ok (n : Z) : bool :=
  let field := seconds_field n in
  negb (includes 10 field) && negb (includes 124 field)
  && negb (includes 58 field)
  && match rev field with c :: _ => is_digit c | [] => false end
  && number_eqb (parseFloat field) (Fin (Qred (n # 100))).

(** ** Data of the examples *)

(** The sequence of the resolver examples: times 0, 3 and 6. *)
Definition three_lines : list LyricLine :=
  [line_at 0 "a"; line_at 3 "b"; line_at 6 "c"].

(** A sequence that is not in time order. *)
Definition unsorted_lines : list LyricLine :=
  [line_at 5 "a"; line_at 1 "b"; line_at 10 "c"].

(** Two LRC files with the same two lines in opposite orders. *)
Definition lrc_later_first : jsstring :=
  lit "[00:02.00]b" ++ [10%N] ++ lit "[00:01.00]a".

Definition lrc_sooner_first : jsstring :=
  lit "[00:01.00]a" ++ [10%N] ++ lit "[00:02.00]b".

(** An LRC file with a carriage return inside a line. *)
Definition lrc_with_cr : jsstring :=
  lit "[00:01.00]a" ++ [13%N] ++ lit "b" ++ [10%N] ++ lit "[00:02.50] c ".

(** A file that is not named [*.lrc], and one that is but holds no tag. *)
Definition text_file : File :=
  {| name := lit "notes.txt"; contents := Some (lit "[00:01.00]y") |}.

Definition untagged_file : File :=
  {| name := lit "song.lrc"; contents := Some (lit "no tags here") |}.

Definition tagged_file : File :=
  {| name := lit "song.lrc"; contents := Some (lit "[00:01.00]y") |}.

(** Lines of an LRC file around a line without a tag. *)
Definition tagged_around_junk : list jsstring :=
  [lit "[00:01.00]a"] ++ lit "junk" :: [lit "[00:02.00]b"].

(** Lines of an edit buffer around a whitespace-only line. *)
Definition timed_around_blank : list jsstring :=
  [lit "1|a"] ++ lit "  " :: [lit "2|b"].

(** Two entries the edit buffer can carry. *)
Definition two_editable : list LyricLine :=
  [ {| time := Fin (12345 # 1000); text := lit "one" |}; line_at 83 "two" ].

(** Two entries whose times have at most two decimals in binary. *)
Definition two_exact : list LyricLine :=
  [ {| time := Fin (25 # 2); text := lit "one" |}; line_at 83 "two" ].

(** ** AudioPlayer *)

Module AudioPlayer.

(** Component state ([useState]). *)
Record state : Type := {
  isPlaying : bool;
  currentTime : number;
  duration : number;
  volume : number;
  isMuted : bool
}.

(** The part of the [audio] element the handlers write. *)
Record audio : Type := {
  element_currentTime : number;
  element_volume : number
}.

(** What a handler asks of the parent or shows to the user. *)
Inductive effect : Type :=
| song_change (index : nat)
| song_add (song : Song)
| toast_success (message : jsstring).

Definition togglePlayPause (st : state) : state :=
  {| isPlaying := negb (isPlaying st); currentTime := currentTime st;
     duration := duration st; volume := volume st; isMuted := isMuted st |}.

Definition reset_time (st : state) : state :=
  {| isPlaying := isPlaying st; currentTime := of_Z 0;
     duration := duration st; volume := volume st; isMuted := isMuted st |}.

Definition handlePrevious (currentSongIndex : nat) (st : state)
  : state * list effect :=
  if (0 <? Z.of_nat currentSongIndex)%Z then
    (reset_time st, [song_change (currentSongIndex - 1)])
  else (st, []).

(** The Next button.  (The [ended] listener of the element calls the
    same function, with the songs of the render that installed it.) *)
Definition handleNext (songs : list Song) (currentSongIndex : nat)
  (st : state) : state * list effect :=
  if (Z.of_nat currentSongIndex <? Z.of_nat (length songs) - 1)%Z then
    (reset_time st, [song_change (currentSongIndex + 1)])
  else (st, []).

(** [x === 0] on numbers. *)
Definition is_zero (x : number) : bool :=
  match x with
  | Fin q => Qzero q
  | _ => false
  end.

(** [audio.volume = v]: the element refuses a value outside [0, 1]
    (and one that is not finite) by throwing; [None] is the throw. *)
Definition set_volume (a : audio) (v : number) : option audio :=
  match v with
  | Fin q =>
      if Qle_bool 0 q && Qle_bool q 1 then
        Some {| element_currentTime := element_currentTime a;
                element_volume := v |}
      else None
  | _ => None
  end.

(** [newVolume] is [value[0]], the position of the only thumb of the
    slider.  The result is [None] when the element throws. *)
Definition handleVolumeChange (newVolume : number) (a : option audio)
  (st : state) : option (state * option audio) :=
  let st' :=
    {| isPlaying := isPlaying st; currentTime := currentTime st;
       duration := duration st; volume := newVolume;
       isMuted := is_zero newVolume |} in
  match a with
  | Some el =>
      match set_volume el newVolume with
      | Some el' => Some (st', Some el')
      | None => None
      end
  | None => Some (st', None)
  end.

Definition toggleMute (a : option audio) (st : state)
  : option (state * option audio) :=
  match a with
  | Some el =>
      let muted (m : bool) :=
        {| isPlaying := isPlaying st; currentTime := currentTime st;
           duration := duration st; volume := volume st; isMuted := m |} in
      if isMuted st then
        match set_volume el (volume st) with
        | Some el' => Some (muted false, Some el')
        | None => None
        end
      else
        match set_volume el (of_Z 0) with
        | Some el' => Some (muted true, Some el')
        | None => None
        end
  | None => Some (st, None)
  end.

(** The value the volume slider shows: [isMuted ? 0 : volume]. *)
Definition shown_volume (st : state) : number :=
  if isMuted st then of_Z 0 else volume st.

Definition formatTime (time : number) : jsstring :=
  let minutes := floor (div time (of_Z 60)) in
  let seconds := floor (rem time (of_Z 60)) in
  toString minutes ++ 58%N :: padStart 2 48%N (toString seconds).

(** [name.replace(re, '')] for the pattern of [handleFileUpload]: a dot,
    then one or more characters that are neither a slash nor a dot, up to
    the end of the string.  The leftmost match is removed. *)
Fixpoint strip_extension (s : jsstring) : jsstring :=
  match s with
  | [] => []
  | c :: r =>
      if N.eqb c 46 && truthy r
         && forallb (fun d => negb (N.eqb d 47 || N.eqb d 46)) r
      then []
      else c :: strip_extension r
  end.

(** The selected file: its name and its media type. *)
Record AudioFile : Type := { file_name : jsstring; file_type : jsstring }.

(** [now] is what [Date.now()] returns and [url] what
    [URL.createObjectURL(file)] returns. *)
Definition handleFileUpload (now : Z) (url : jsstring)
  (file : option AudioFile) : list effect :=
  match file with
  | Some f =>
      if starts_with (lit "audio/") (file_type f) then
        let newSong :=
          {| id := toString (of_Z now);
             title := strip_extension (file_name f);
             artist := lit "Unknown Artist";
             src := url;
             lyrics := None |} in
        [ song_add newSong;
          toast_success
            (lit "Added " ++ 34%N :: title newSong
             ++ 34%N :: lit " to your library") ]
      else []
  | None => []
  end.

End AudioPlayer.

(** ** SongLibrary *)

Module SongLibrary.

Inductive effect : Type :=
| play_pause
| song_select (index : nat).

Definition handleSongClick (currentSongIndex index : nat) : effect :=
  if (index =? currentSongIndex)%nat then play_pause else song_select index.

End SongLibrary.

(** ** MusicApp: playback state and the handlers given to the children *)

Module Coordinator.

(** The state of [MusicApp]: the songs and the selection, the playing
    flag and the playback time. *)
Record state : Type := {
  library : app;
  isPlaying : bool;
  currentTime : number
}.

Definition handleSongChange (index : nat) (st : state) : state :=
  {| library := {| songs := songs (library st); currentSongIndex := index |};
     isPlaying := isPlaying st;
     currentTime := of_Z 0 |}.

Definition handleSongAdd (newSong : Song) (st : state) : state :=
  {| library :=
       {| songs := songs (library st) ++ [newSong];
          currentSongIndex :=
            if (length (songs (library st)) =? 0)%nat then 0%nat
            else currentSongIndex (library st) |};
     isPlaying := isPlaying st;
     currentTime := currentTime st |}.

Definition handlePlayPause (st : state) : state :=
  {| library := library st;
     isPlaying := negb (isPlaying st);
     currentTime := currentTime st |}.

Definition handleLyricsUpdate (l : list LyricLine) (st : state) : state :=
  {| library := MusicApp.handleLyricsUpdate (library st) l;
     isPlaying := isPlaying st;
     currentTime := currentTime st |}.

(** [songs[currentSongIndex]]. *)
Definition currentSong (st : state) : option Song :=
  nth_error (songs (library st)) (currentSongIndex (library st)).

(** The props wiring: what each child's request does to the state. *)
Definition from_player (st : state) (e : AudioPlayer.effect) : state :=
  match e with
  | AudioPlayer.song_change index => handleSongChange index st
  | AudioPlayer.song_add song => handleSongAdd song st
  | AudioPlayer.toast_success _ => st
  end.

Definition from_library (st : state) (e : SongLibrary.effect) : state :=
  match e with
  | SongLibrary.play_pause => handlePlayPause st
  | SongLibrary.song_select index => handleSongChange index st
  end.

Definition from_viewer (st : state) (e : LyricsViewer.effect) : state :=
  match e with
  | lyrics_update l => handleLyricsUpdate l st
  | _ => st
  end.

(** The buttons of the player, and the end of a song. *)
Definition next (st : state) (p : AudioPlayer.state) : state :=
  fold_left from_player
    (snd (AudioPlayer.handleNext (songs (library st))
            (currentSongIndex (library st)) p)) st.

Definition previous (st : state) (p : AudioPlayer.state) : state :=
  fold_left from_player
    (snd (AudioPlayer.handlePrevious (currentSongIndex (library st)) p)) st.

(** A click on the song at [index] of the library. *)
Definition click (index : nat) (st : state) : state :=
  from_library st
    (SongLibrary.handleSongClick (currentSongIndex (library st)) index).

(** An audio file chosen in the player. *)
Definition add_file (now : Z) (url : jsstring)
  (file : option AudioPlayer.AudioFile) (st : state) : state :=
  fold_left from_player (AudioPlayer.handleFileUpload now url file) st.

End Coordinator.

(** ** LyricsViewer: what is rendered, and the Cancel button *)

Inductive screen : Type :=
| no_lyrics_screen
| edit_screen
| lyrics_screen.

(** The three returns of the component, in the order of the source. *)
Definition rendered (lyrics : option (list LyricLine)) (st : LyricsViewer.state)
  : screen :=
  if negb (match lyrics with Some _ => true | None => false end)
     && negb (editMode st)
  then no_lyrics_screen
  else if editMode st then edit_screen
  else lyrics_screen.

(** [onClick={() => setEditMode(false)}]. *)
Definition handleCancel (st : LyricsViewer.state) : LyricsViewer.state :=
  {| editMode := false;
     lyricsText := lyricsText st;
     currentLineIndex := currentLineIndex st |}.

(** The textarea: [onChange={(e) => setLyricsText(e.target.value)}]. *)
Definition handleType (value : jsstring) (st : LyricsViewer.state)
  : LyricsViewer.state :=
  {| editMode := editMode st;
     lyricsText := value;
     currentLineIndex := currentLineIndex st |}.

(** ** Vocabulary of the further statements *)

(** The entries up to position [i] have started at [currentTime] and
    the later ones have not. *)
Definition started_up_to (lyrics : list LyricLine) (currentTime : number)
  (i : nat) : Prop :=
  (i < length lyrics)%nat
  /\ (forall j e, (j <= i)%nat -> nth_error lyrics j = Some e ->
                  ge currentTime (time e) = true)
  /\ (forall j e, (i < j)%nat -> nth_error lyrics j = Some e ->
                  lt currentTime (time e) = true).

(** A time that is a whole number of hundredths of a second, in lowest
    terms, as the exact arithmetic of the model produces them. *)
Definition whole_hundredths (q : Q) : Prop :=
  exists n : Z, q = Qred (n # 100).

(** The seconds field of [formatTime] for [s] whole seconds. *)
Definition clock_seconds (s : Z) : jsstring := padStart 2 48 (digits s).

Definition clock_seconds_ok (s : Z) : bool :=
  (length (clock_seconds s) =? 2)%nat
  && negb (includes 58 (clock_seconds s))
  && number_eqb (parseFloat (clock_seconds s)) (of_Z s).

(** What an entry of the LRC parser looks like in the model: the exact
    value of its tag, and a text that is a trimmed piece of one line. *)
Definition lrc_shaped (e : LyricLine) : Prop :=
  (exists n, (0 <= n < 604000)%Z /\ time e = Fin (Qred (n # 100)))
  /\ free_of 10 (text e) /\ trim (text e) = text e.

(** A file-name extension the pattern of [handleFileUpload] removes:
    one or more characters, none of them a slash or a dot. *)
Definition is_extension (ext : jsstring) : bool :=
  truthy ext && forallb (fun d => negb (N.eqb d 47 || N.eqb d 46)) ext.

(** [x === y] on numbers. *)
Definition strict_eq (x y : number) : bool :=
  match x, y with
  | Fin p, Fin q => Qeq_bool p q
  | Inf a, Inf b => Bool.eqb a b
  | _, _ => false
  end.

(** A volume the element accepts. *)
Definition unit_volume (v : number) : Prop :=
  exists q, v = Fin q /\ (0 <= q)%Q /\ (q <= 1)%Q.

(** The volume slider shows the volume of the element. *)
Definition volume_in_sync (el : AudioPlayer.audio) (st : AudioPlayer.state)
  : Prop :=
  unit_volume (AudioPlayer.volume st)
  /\ strict_eq (AudioPlayer.element_volume el) (AudioPlayer.shown_volume st)
     = true.

(** A line of the edit buffer without any [|]. *)
Definition untimed (line : jsstring) : Prop := free_of 124 line.

(** The editor open on a buffer of two spaces. *)
Definition editing_blank : LyricsViewer.state :=
  {| editMode := true; lyricsText := lit "  "; currentLineIndex := 1 |}.

(** Three lines of plain lyrics. *)
Definition plain_lyrics : jsstring :=
  lit "one" ++ [10%N] ++ lit "two" ++ [10%N] ++ lit "three".

(** * Properties *)

(** ** Arrays *)

Section Arrays.
Context {A B : Type}.

Lemma nth_error_map_from (f : A -> nat -> B) (a : list A) :
  forall k j,
    nth_error (map_from f a k) j
    = option_map (fun x => f x (k + j)%nat) (nth_error a j).
Proof.
  induction a as [|x r IH]; intros k j.
  - now destruct j.
  - destruct j as [|j]; simpl.
    + now rewrite Nat.add_0_r.
    + rewrite IH. now replace (S k + j)%nat with (k + S j)%nat by lia.
Qed.

Lemma length_map_from (f : A -> nat -> B) (a : list A) :
  forall k, length (map_from f a k) = length a.
Proof.
  induction a as [|x r IH]; intros k; simpl; [reflexivity|].
  now rewrite IH.
Qed.

(** A loop that pushes one element per iteration is an indexed map. *)
Lemma forEach_push_all (f : A -> nat -> B) (a : list A) :
  forall k acc,
    forEach_from (fun x index st => push st (f x index)) a k acc
    = acc ++ map_from f a k.
Proof.
  induction a as [|x r IH]; intros k acc; simpl.
  - now rewrite app_nil_r.
  - rewrite IH. unfold push. now rewrite <- app_assoc.
Qed.

(** A loop that pushes zero or one element per iteration is a
    concatenation of what every element contributes. *)
Lemma forEach_push_some (f : A -> option B) (a : list A) :
  forall k acc,
    forEach_from
      (fun x (_ : nat) st =>
         match f x with Some y => push st y | None => st end) a k acc
    = acc ++ flat_map (fun x => match f x with Some y => [y] | None => [] end) a.
Proof.
  induction a as [|x r IH]; intros k acc; simpl.
  - now rewrite app_nil_r.
  - rewrite IH. destruct (f x); unfold push; simpl.
    + now rewrite <- app_assoc.
    + reflexivity.
Qed.

(** [findIndex] returns the first index at which the predicate holds. *)
Lemma findIndex_from_found (p : A -> nat -> bool) (a : list A) :
  forall k i,
    findIndex_from p a k = Z.of_nat (k + i)
    <-> (exists x, nth_error a i = Some x /\ p x (k + i)%nat = true)
        /\ (forall j y, (j < i)%nat -> nth_error a j = Some y ->
                        p y (k + j)%nat = false).
Proof.
  induction a as [|x r IH]; intros k i; simpl.
  - split.
    + lia.
    + intros [[y [H _]] _]. now destruct i.
  - destruct (p x k) eqn:Hp.
    + split.
      * intros H. assert (i = 0)%nat by lia. subst i.
        rewrite Nat.add_0_r. split; [now exists x|]. intros j y Hj. lia.
      * intros [[y [Hy Hpy]] Hlt]. destruct i as [|i]; [f_equal; lia|].
        specialize (Hlt 0%nat x ltac:(lia) eq_refl).
        rewrite Nat.add_0_r in Hlt. congruence.
    + destruct i as [|i].
      * split.
        -- intros H. exfalso.
           assert (Hge : forall l n, (Z.of_nat n <= findIndex_from p l n
                                      \/ findIndex_from p l n = -1)%Z).
           { clear. induction l as [|z l IHl]; intros n; simpl; [now right|].
             destruct (p z n); [left; lia|].
             destruct (IHl (S n)) as [H|H]; [left; lia | now right]. }
           destruct (Hge r (S k)) as [H'|H']; lia.
        -- intros [[y [Hy Hpy]] _]. simpl in Hy. injection Hy as <-.
           rewrite Nat.add_0_r in Hpy. congruence.
      * replace (k + S i)%nat with (S k + i)%nat by lia.
        rewrite IH. simpl. split.
        -- intros [Hex Hlt]. split; [exact Hex|].
           intros [|j] y Hj Hy; simpl in Hy.
           ++ injection Hy as <-. now rewrite Nat.add_0_r.
           ++ replace (k + S j)%nat with (S (k + j)) by lia.
              apply Hlt; [lia | exact Hy].
        -- intros [Hex Hlt]. split; [exact Hex|].
           intros j y Hj Hy.
           specialize (Hlt (S j) y ltac:(lia) Hy).
           now replace (k + S j)%nat with (S (k + j)) in Hlt by lia.
Qed.

Lemma findIndex_from_none (p : A -> nat -> bool) (a : list A) :
  forall k,
    findIndex_from p a k = (-1)%Z
    <-> (forall j y, nth_error a j = Some y -> p y (k + j)%nat = false).
Proof.
  induction a as [|x r IH]; intros k; simpl.
  - split; [|reflexivity]. intros _ j y H. now destruct j.
  - destruct (p x k) eqn:Hp.
    + split; [lia|]. intros H. specialize (H 0%nat x eq_refl).
      rewrite Nat.add_0_r in H. congruence.
    + rewrite IH. split.
      * intros H [|j] y Hy; simpl in Hy.
        -- injection Hy as <-. now rewrite Nat.add_0_r.
        -- replace (k + S j)%nat with (S k + j)%nat by lia. now apply H.
      * intros H j y Hy. specialize (H (S j) y Hy).
        now replace (k + S j)%nat with (S k + j)%nat in H by lia.
Qed.

End Arrays.

(** ** Comparisons of numbers *)

Lemma lt_ge_trans (t a b : number) :
  lt t a = true -> ge b a = true -> lt t b = true.
Proof.
  destruct t as [| [|] | t], a as [| [|] | a], b as [| [|] | b];
    simpl; try congruence.
  rewrite !negb_true_iff, Qle_bool_iff. intros H1 H2.
  destruct (Qle_bool b t) eqn:E; [|reflexivity].
  apply Qle_bool_iff in E.
  assert (Ha : (a <= t)%Q) by (eapply Qle_trans; eassumption).
  apply Qle_bool_iff in Ha. congruence.
Qed.

Lemma lt_not_ge (t b : number) : lt t b = true -> ge t b = false.
Proof.
  destruct t as [| [|] | t], b as [| [|] | b]; simpl; try congruence.
  now rewrite negb_true_iff.
Qed.

(** ** handleLyricsUpdate *)

(** C8.  [handleLyricsUpdate] replaces the [lyrics] field of the song at
    the selected index by the whole new sequence and keeps its [id],
    [title], [artist] and [src]; every other song record, the number of
    songs and the selection are unchanged. *)
Theorem handleLyricsUpdate_frame (a : app) (l : list LyricLine) (song : Song)
  (Hsel : nth_error (songs a) (currentSongIndex a) = Some song) :
  let a' := handleLyricsUpdate a l in
  (exists song',
      nth_error (songs a') (currentSongIndex a) = Some song'
      /\ lyrics song' = Some l
      /\ id song' = id song /\ title song' = title song
      /\ artist song' = artist song /\ src song' = src song)
  /\ (forall j, j <> currentSongIndex a ->
                nth_error (songs a') j = nth_error (songs a) j)
  /\ length (songs a') = length (songs a)
  /\ currentSongIndex a' = currentSongIndex a.
Proof.
  unfold handleLyricsUpdate, map_indexed; simpl.
  repeat split.
  - exists (with_lyrics song l).
    rewrite nth_error_map_from, Hsel. simpl.
    rewrite Nat.eqb_refl. now repeat split.
  - intros j Hj. rewrite nth_error_map_from. simpl.
    destruct (nth_error (songs a) j) as [s|]; simpl; [|reflexivity].
    destruct (Nat.eqb_spec j (currentSongIndex a)); [contradiction|reflexivity].
  - apply length_map_from.
Qed.

Lemma handleLyricsUpdate_frame_witness :
  exists song',
    nth_error (songs (handleLyricsUpdate start [line_at 1 "la"])) 0
    = Some song'
    /\ lyrics song' = Some [line_at 1 "la"].
Proof.
  destruct (handleLyricsUpdate_frame start [line_at 1 "la"] _ eq_refl)
    as [[song' [H1 [H2 _]]] _].
  exists song'. split; [exact H1 | exact H2].
Defined.

(** ** The active-line effect *)

Lemma is_active_in_window (lyrics : list LyricLine) (t : number)
  (line : LyricLine) (i : nat) :
  nth_error lyrics i = Some line ->
  is_active lyrics t line i = true <-> in_window lyrics t i.
Proof.
  intros Hi. unfold is_active, in_window.
  replace (i + 1)%nat with (S i) by lia.
  rewrite andb_true_iff. split.
  - intros [Hge Hnext]. exists line. repeat split; try assumption.
    destruct (nth_error lyrics (S i)) as [next|] eqn:En.
    + right. now exists next.
    + left. apply nth_error_None in En.
      assert (i < length lyrics)%nat by (apply nth_error_Some; congruence).
      lia.
  - intros [line' [Hi' [Hge Hnext]]].
    assert (line' = line) by congruence. subst line'.
    split; [assumption|].
    destruct Hnext as [Hlast | [next [En Hlt]]].
    + assert (En : nth_error lyrics (S i) = None)
        by (apply nth_error_None; lia).
      now rewrite En.
    + now rewrite En.
Qed.

Lemma before_first_all_later (t : number) (lyrics : list LyricLine) :
  ascending lyrics ->
  (forall first, nth_error lyrics 0 = Some first -> lt t (time first) = true) ->
  forall i line, nth_error lyrics i = Some line -> lt t (time line) = true.
Proof.
  induction 1 as [|x l Hs IH Hhd]; intros Hfirst i line Hi.
  - now destruct i.
  - destruct i as [|i]; [now apply Hfirst|].
    simpl in Hi. apply IH with (i := i); [|exact Hi].
    intros first Hf. destruct l as [|y l]; [discriminate|].
    injection Hf as <-. inversion Hhd as [|? ? Hxy]; subst.
    eapply lt_ge_trans; [apply Hfirst; reflexivity | exact Hxy].
Qed.

(** C1 (amended).  For a present sequence the effect stores the first
    index whose window contains [currentTime], and none ([-1]) exactly
    when no window does; when the sequence is in non-decreasing order
    of time, a [currentTime] strictly before the first entry's time
    gives none; for an absent sequence the effect stores nothing and
    the index keeps its value, none in the initial state.  The four
    cases of the sequence with times 0, 3, 6 are as specified. *)
Theorem active_line_resolver :
  (forall lyrics currentTime st,
      currentLineIndex (activeLineEffect (Some lyrics) currentTime st)
      = activeIndex lyrics currentTime)
  /\ (forall lyrics currentTime i,
         activeIndex lyrics currentTime = Z.of_nat i
         <-> in_window lyrics currentTime i
             /\ forall j, (j < i)%nat -> ~ in_window lyrics currentTime j)
  /\ (forall lyrics currentTime,
         activeIndex lyrics currentTime = (-1)%Z
         <-> forall i, ~ in_window lyrics currentTime i)
  /\ (forall lyrics currentTime,
         ascending lyrics ->
         (forall first, nth_error lyrics 0 = Some first ->
                        lt currentTime (time first) = true) ->
         activeIndex lyrics currentTime = (-1)%Z)
  /\ (forall currentTime st,
         activeLineEffect None currentTime st = st
         /\ currentLineIndex (activeLineEffect None currentTime initial)
            = (-1)%Z)
  /\ (activeIndex three_lines (of_Z 4) = 1%Z
      /\ activeIndex three_lines (of_Z (-1)) = (-1)%Z
      /\ activeIndex three_lines (of_Z 6) = 2%Z
      /\ activeIndex three_lines (of_Z 1000) = 2%Z).
Proof.
  assert (Hnone : forall lyrics currentTime,
             activeIndex lyrics currentTime = (-1)%Z
             <-> forall i, ~ in_window lyrics currentTime i).
  { intros lyrics t. unfold activeIndex, findIndex.
    rewrite findIndex_from_none. simpl. split.
    - intros H i Hw. destruct Hw as [line [Hi Hrest]].
      assert (Hw : in_window lyrics t i) by (exists line; tauto).
      apply (is_active_in_window lyrics t _ _ Hi) in Hw.
      rewrite (H i line Hi) in Hw. discriminate.
    - intros H j y Hj.
      destruct (is_active lyrics t y j) eqn:E; [|reflexivity].
      apply (is_active_in_window lyrics t _ _ Hj) in E. now apply H in E. }
  split; [reflexivity|]. split; [|split; [exact Hnone|split; [|split]]].
  - intros lyrics t i. unfold activeIndex, findIndex.
    rewrite (findIndex_from_found _ lyrics 0 i). simpl. split.
    + intros [[x [Hi Hx]] Hlt]. split.
      * now apply (is_active_in_window lyrics t _ _ Hi).
      * intros j Hj Hw. pose proof Hw as [y [Hy _]].
        apply (is_active_in_window lyrics t _ _ Hy) in Hw.
        rewrite (Hlt j y Hj Hy) in Hw. discriminate.
    + intros [Hw Hlt]. split.
      * pose proof Hw as [x [Hi _]]. exists x. split; [exact Hi|].
        now apply (is_active_in_window lyrics t _ _ Hi).
      * intros j y Hj Hy.
        destruct (is_active lyrics t y j) eqn:E; [|reflexivity].
        apply (is_active_in_window lyrics t _ _ Hy) in E.
        now apply Hlt in E.
  - intros lyrics t Hasc Hfirst. apply Hnone.
    intros i [line [Hi [Hge _]]].
    rewrite (lt_not_ge _ _ (before_first_all_later t lyrics Hasc Hfirst i line Hi)) in Hge.
    discriminate.
  - intros t st. split; reflexivity.
  - repeat split; vm_compute; reflexivity.
Qed.

Lemma active_line_resolver_witness :
  ascending [line_at 2 "a"; line_at 5 "b"]
  /\ activeIndex [line_at 2 "a"; line_at 5 "b"] (of_Z 1) = (-1)%Z.
Proof.
  assert (Hasc : ascending [line_at 2 "a"; line_at 5 "b"]).
  { repeat constructor. }
  split; [exact Hasc|].
  apply (proj1 (proj2 (proj2 (proj2 active_line_resolver)))).
  - exact Hasc.
  - intros first Hf. injection Hf as <-. reflexivity.
Defined.

(** Out of time order, a [currentTime] before the first entry's time
    still selects a later entry whose window contains it. *)
Lemma active_line_unsorted_counterexample :
  nth_error unsorted_lines 0 = Some (line_at 5 "a")
  /\ lt (of_Z 2) (time (line_at 5 "a")) = true
  /\ activeIndex unsorted_lines (of_Z 2) = 1%Z.
Proof. repeat split. Qed.

(** ** Sorting by time *)

Lemma sort_insert_perm {A : Type} (cmp : A -> A -> number) (x : A) (a : list A) :
  Permutation (sort_insert cmp x a) (x :: a).
Proof.
  induction a as [|y r IH]; cbn [sort_insert]; [reflexivity|].
  destruct (lt (Fin 0) (cmp x y)); [|reflexivity].
  rewrite IH. apply perm_swap.
Qed.

Lemma sort_perm {A : Type} (cmp : A -> A -> number) (a : list A) :
  Permutation (sort cmp a) a.
Proof.
  induction a as [|x r IH]; cbn [sort fold_right]; [reflexivity|].
  fold (sort cmp r). rewrite sort_insert_perm. now constructor.
Qed.

Lemma Qle_bool_Qred_l (p q : Q) : Qle_bool (Qred p) q = Qle_bool p q.
Proof.
  apply eq_true_iff_eq. rewrite !Qle_bool_iff. now rewrite Qred_correct.
Qed.

Lemma by_time_after (x y : LyricLine) (p q : Q) :
  time x = Fin p -> time y = Fin q ->
  lt (Fin 0) (by_time x y) = negb (Qle_bool p q).
Proof.
  intros Hp Hq. unfold by_time, sub. rewrite Hp, Hq. cbn [add neg lt].
  f_equal. rewrite Qle_bool_Qred_l.
  apply eq_true_iff_eq. rewrite !Qle_bool_iff, Qred_correct.
  split; intros H; lra.
Qed.

Lemma by_time_order (x y : LyricLine) :
  proper_time x -> proper_time y ->
  if lt (Fin 0) (by_time x y) then time_le y x else time_le x y.
Proof.
  intros [p [Hp _]] [q [Hq _]]. rewrite (by_time_after x y p q Hp Hq).
  unfold time_le. rewrite Hp, Hq. cbn [ge].
  destruct (Qle_bool p q) eqn:E; cbn [negb]; [reflexivity|].
  apply Qle_bool_iff.
  destruct (Qlt_le_dec q p) as [H|H]; [lra|].
  apply Qle_bool_iff in H. congruence.
Qed.

Lemma sort_insert_ascending (x : LyricLine) (a : list LyricLine) :
  proper_time x -> Forall proper_time a -> ascending a ->
  ascending (sort_insert by_time x a).
Proof.
  intros Hx Ha Hs. induction a as [|y r IH]; cbn [sort_insert].
  - repeat constructor.
  - pose proof (by_time_order x y Hx (Forall_inv Ha)) as Ho.
    destruct (lt (Fin 0) (by_time x y)).
    + inversion Hs as [|? ? Hr Hhd]; subst.
      constructor.
      * apply IH; [exact (Forall_inv_tail Ha) | exact Hr].
      * destruct r as [|z r]; cbn [sort_insert].
        -- now constructor.
        -- destruct (lt (Fin 0) (by_time x z)); constructor;
             [now inversion Hhd | exact Ho].
    + constructor; [exact Hs | now constructor].
Qed.

Lemma sort_ascending (a : list LyricLine) :
  Forall proper_time a -> ascending (sort by_time a).
Proof.
  induction 1 as [|x r Hx Hr IH]; cbn [sort fold_right]; [constructor|].
  fold (sort by_time r). apply sort_insert_ascending; [exact Hx | | exact IH].
  apply Forall_forall. intros e He.
  apply (Permutation_in _ (sort_perm by_time r)) in He.
  revert e He. now apply Forall_forall.
Qed.

(** ** The LRC parser *)

Lemma forEach_from_ext {A St : Type} (f g : A -> nat -> St -> St) (a : list A) :
  (forall x i st, f x i st = g x i st) ->
  forall k st, forEach_from f a k st = forEach_from g a k st.
Proof.
  intros Hfg. induction a as [|x r IH]; intros k st; simpl; [reflexivity|].
  now rewrite Hfg, IH.
Qed.

Lemma parseLRCFile_lines (content : jsstring) :
  parseLRCFile content
  = sort by_time
      (flat_map (fun line => option_list (lrc_entry line)) (split 10 content)).
Proof.
  unfold parseLRCFile, forEach. f_equal.
  rewrite (forEach_from_ext _
             (fun line (_ : nat) st =>
                match lrc_entry line with
                | Some e => push st e
                | None => st
                end)).
  - now rewrite forEach_push_some.
  - intros line _ st. unfold lrc_entry.
    now destruct (lrc_match line) as [[[[g1 g2] g3] g4]|].
Qed.

Lemma tag_here_tag (m1 m2 s1 s2 h1 h2 : char) (rest : jsstring) :
  forallb is_digit [m1; m2; s1; s2; h1; h2] = true ->
  tag_here (lrc_tag m1 m2 s1 s2 h1 h2 ++ rest)
  = Some ([m1; m2], [s1; s2], [h1; h2], take_dot rest).
Proof.
  cbn [forallb]. rewrite !andb_true_iff.
  intros [H1 [H2 [H3 [H4 [H5 [H6 _]]]]]].
  cbn [lrc_tag List.app tag_here]. rewrite H1, H2, H3, H4, H5, H6. reflexivity.
Qed.

Lemma tag_here_Some (s : jsstring) g :
  tag_here s = Some g ->
  exists m1 m2 s1 s2 h1 h2 rest,
    forallb is_digit [m1; m2; s1; s2; h1; h2] = true
    /\ s = lrc_tag m1 m2 s1 s2 h1 h2 ++ rest
    /\ g = ([m1; m2], [s1; s2], [h1; h2], take_dot rest).
Proof.
  destruct s as [|o [|m1 [|m2 [|c [|s1 [|s2 [|d [|h1 [|h2 [|e rest]]]]]]]]]];
    cbn [tag_here]; try discriminate.
  destruct (N.eqb o 91 && is_digit m1 && is_digit m2 && N.eqb c 58
            && is_digit s1 && is_digit s2 && N.eqb d 46
            && is_digit h1 && is_digit h2 && N.eqb e 93) eqn:E;
    [|discriminate].
  intros H. injection H as <-.
  rewrite !andb_true_iff in E.
  destruct E as [[[[[[[[[Ho Hm1] Hm2] Hc] Hs1] Hs2] Hd] Hh1] Hh2] He].
  apply N.eqb_eq in Ho, Hc, Hd, He. subst o c d e.
  exists m1, m2, s1, s2, h1, h2, rest. cbn [forallb].
  rewrite Hm1, Hm2, Hs1, Hs2, Hh1, Hh2. now repeat split.
Qed.

Lemma has_tag_at_tag_here (line : jsstring) (k : nat) :
  has_tag_at line k <-> tag_here (skipn k line) <> None.
Proof.
  split.
  - intros (m1 & m2 & s1 & s2 & h1 & h2 & rest & Hd & _ & Hs).
    rewrite Hs, (tag_here_tag _ _ _ _ _ _ _ Hd). discriminate.
  - destruct (tag_here (skipn k line)) as [g|] eqn:E; [|congruence].
    intros _.
    destruct (tag_here_Some _ _ E)
      as (m1 & m2 & s1 & s2 & h1 & h2 & rest & Hd & Hs & _).
    exists m1, m2, s1, s2, h1, h2, rest. repeat split; try assumption.
    destruct (Nat.le_gt_cases k (length line)) as [H|H]; [exact H|].
    rewrite skipn_all2 in Hs by lia. discriminate.
Qed.

(** The match is the leftmost one. *)
Lemma lrc_match_Some (line : jsstring) g :
  lrc_match line = Some g ->
  exists k, (k <= length line)%nat
            /\ tag_here (skipn k line) = Some g
            /\ forall j, (j < k)%nat -> tag_here (skipn j line) = None.
Proof.
  induction line as [|c r IH].
  - cbn. discriminate.
  - cbn [lrc_match]. destruct (tag_here (c :: r)) as [g'|] eqn:E.
    + intros H. injection H as <-. exists 0%nat. repeat split.
      * lia.
      * exact E.
      * intros j Hj. lia.
    + intros H. destruct (IH H) as [k [Hk [Hg Hlt]]].
      exists (S k). repeat split.
      * simpl. lia.
      * exact Hg.
      * intros [|j] Hj; [exact E|]. apply Hlt. lia.
Qed.

Lemma lrc_match_None (line : jsstring) :
  lrc_match line = None -> forall k, tag_here (skipn k line) = None.
Proof.
  induction line as [|c r IH].
  - intros _ k. now destruct k.
  - cbn [lrc_match]. destruct (tag_here (c :: r)) as [g'|] eqn:E;
      [discriminate|].
    intros H [|k]; [exact E | now apply IH].
Qed.

Lemma is_digit_cases (c : char) :
  is_digit c = true -> In c [48; 49; 50; 51; 52; 53; 54; 55; 56; 57]%N.
Proof.
  unfold is_digit. rewrite andb_true_iff, !N.leb_le. intros [Hlo Hhi].
  cbn [In]. lia.
Qed.

Lemma parseInt_two_digits (a b : char) :
  is_digit a = true -> is_digit b = true ->
  parseInt [a; b] = of_Z (two_digits a b).
Proof.
  intros Ha Hb. apply is_digit_cases in Ha, Hb. cbn [In] in Ha, Hb.
  repeat (destruct Ha as [<- | Ha]); try contradiction;
    repeat (destruct Hb as [<- | Hb]); try contradiction; reflexivity.
Qed.

Lemma two_digits_nonneg (a b : char) : (0 <= two_digits a b)%Z.
Proof. unfold two_digits, digit_val. lia. Qed.

Lemma lrc_time_arith (mm ss cc : Z) :
  add (add (mul (of_Z mm) (of_Z 60)) (of_Z ss)) (div (of_Z cc) (of_Z 100))
  = Fin (Qred (inject_Z mm * 60 + inject_Z ss + inject_Z cc / 100)).
Proof.
  unfold of_Z. cbn [mul add div].
  change (Qzero (inject_Z 100)) with false. cbn iota.
  f_equal. apply Qred_complete. rewrite !Qred_correct. reflexivity.
Qed.

Lemma lrc_time_proper (m1 m2 s1 s2 h1 h2 : char) :
  exists q, lrc_time m1 m2 s1 s2 h1 h2 = Fin q /\ (0 <= q)%Q.
Proof.
  eexists. split; [reflexivity|]. rewrite Qred_correct.
  pose proof (two_digits_nonneg m1 m2) as Hm.
  pose proof (two_digits_nonneg s1 s2) as Hs.
  pose proof (two_digits_nonneg h1 h2) as Hh.
  rewrite Zle_Qle in Hm, Hs, Hh.
  change (inject_Z 0) with 0%Q in Hm, Hs, Hh.
  unfold Qdiv. change (/ 100)%Q with (1 # 100)%Q. lra.
Qed.

(** What a line contributes, read off the loop body. *)
Lemma lrc_entry_yields (line : jsstring) :
  line_yields line (lrc_entry line).
Proof.
  unfold lrc_entry.
  destruct (lrc_match line) as [[[[g1 g2] g3] g4]|] eqn:E.
  - destruct (lrc_match_Some _ _ E) as [k [Hk [Hg Hlt]]].
    destruct (tag_here_Some _ _ Hg)
      as (m1 & m2 & s1 & s2 & h1 & h2 & rest & Hd & Hs & Hgs).
    injection Hgs as -> -> -> ->.
    exists k, m1, m2, s1, s2, h1, h2, rest. cbn [time text].
    pose proof Hd as Hd'. cbn [forallb] in Hd'. rewrite !andb_true_iff in Hd'.
    destruct Hd' as [H1 [H2 [H3 [H4 [H5 [H6 _]]]]]].
    repeat split; try assumption.
    + intros j Hj Htag. apply has_tag_at_tag_here in Htag.
      now rewrite (Hlt j Hj) in Htag.
    + rewrite !parseInt_two_digits by assumption. apply lrc_time_arith.
  - intros k Htag. apply has_tag_at_tag_here in Htag.
    now rewrite (lrc_match_None _ E k) in Htag.
Qed.

Lemma lrc_entry_proper (line : jsstring) (e : LyricLine) :
  lrc_entry line = Some e -> proper_time e.
Proof.
  intros He. pose proof (lrc_entry_yields line) as Hy. rewrite He in Hy.
  destruct Hy as (k & m1 & m2 & s1 & s2 & h1 & h2 & rest & _ & _ & Ht & _).
  unfold proper_time. rewrite Ht. apply lrc_time_proper.
Qed.

Lemma lrc_entries_proper (lines : list jsstring) :
  Forall proper_time
    (flat_map (fun line => option_list (lrc_entry line)) lines).
Proof.
  apply Forall_forall. intros e He. apply in_flat_map in He.
  destruct He as [line [_ He]].
  destruct (lrc_entry line) as [e'|] eqn:E; cbn in He; [|contradiction].
  destruct He as [<-|[]]. eapply lrc_entry_proper; eassumption.
Qed.

Lemma parseLRCFile_proper (content : jsstring) :
  Forall proper_time (parseLRCFile content).
Proof.
  rewrite parseLRCFile_lines. apply Forall_forall. intros e He.
  apply (Permutation_in _ (sort_perm by_time _)) in He.
  revert e He. apply Forall_forall. apply lrc_entries_proper.
Qed.

(** C2 (amended).  The lines of the input that hold a tag
    [[mm:ss.xx]] anywhere are exactly those that contribute an entry,
    one each: its time is [mm*60 + ss + xx/100] for the leftmost tag of
    the line, its text is what follows that tag up to the first line
    terminator, trimmed.  The other lines contribute nothing; the result
    is these entries sorted by time, and every input has a result. *)
Theorem parseLRCFile_entries (content : jsstring) :
  exists picks : list (option LyricLine),
    Forall2 line_yields (split 10 content) picks
    /\ parseLRCFile content = sort by_time (flat_map option_list picks)
    /\ Permutation (parseLRCFile content) (flat_map option_list picks).
Proof.
  exists (map lrc_entry (split 10 content)).
  assert (Hflat : forall lines,
             flat_map option_list (map lrc_entry lines)
             = flat_map (fun line => option_list (lrc_entry line)) lines).
  { induction lines as [|l r IH]; [reflexivity|]. cbn. now rewrite IH. }
  split; [|split].
  - induction (split 10 content) as [|l r IH]; constructor;
      [apply lrc_entry_yields | exact IH].
  - rewrite Hflat. apply parseLRCFile_lines.
  - rewrite Hflat, parseLRCFile_lines. apply sort_perm.
Qed.

(** A tag that is not at the start of its line is matched all the
    same, and the text stops at a carriage return. *)
Lemma parseLRCFile_unanchored_counterexample :
  parseLRCFile (lit "x[00:01.00]y") = [line_at 1 "y"]
  /\ parseLRCFile lrc_with_cr
     = [line_at 1 "a"; {| time := Fin (5 # 2); text := lit "c" |}].
Proof. split; vm_compute; reflexivity. Qed.

(** C5.  The result of the LRC parser is in non-decreasing order of
    time, and two inputs whose lines are permutations of each other
    give the same entries up to the order of entries of equal time. *)
Theorem parseLRCFile_sorted :
  (forall content, ascending (parseLRCFile content))
  /\ (forall c1 c2,
         Permutation (split 10 c1) (split 10 c2) ->
         Permutation (parseLRCFile c1) (parseLRCFile c2)
         /\ ascending (parseLRCFile c1) /\ ascending (parseLRCFile c2)).
Proof.
  assert (Hasc : forall content, ascending (parseLRCFile content)).
  { intros content. rewrite parseLRCFile_lines.
    apply sort_ascending, lrc_entries_proper. }
  split; [exact Hasc|]. intros c1 c2 Hperm. split; [|split; apply Hasc].
  rewrite !parseLRCFile_lines.
  rewrite (sort_perm by_time _).
  rewrite (Permutation_flat_map _ Hperm).
  symmetry. apply sort_perm.
Qed.

Lemma parseLRCFile_sorted_witness :
  Permutation (split 10 lrc_later_first) (split 10 lrc_sooner_first)
  /\ Permutation (parseLRCFile lrc_later_first)
                 (parseLRCFile lrc_sooner_first).
Proof.
  assert (H : Permutation (split 10 lrc_later_first)
                          (split 10 lrc_sooner_first))
    by apply perm_swap.
  split; [exact H|].
  exact (proj1 (proj2 parseLRCFile_sorted _ _ H)).
Defined.

(** ** The freeform parser *)

Lemma trimStart_nil (s : jsstring) :
  trimStart s = [] <-> blank s = true.
Proof.
  unfold blank. induction s as [|c r IH]; cbn [trimStart forallb].
  - tauto.
  - destruct (is_trimmed_char c); cbn [andb]; [exact IH|].
    split; discriminate.
Qed.

Lemma trimStart_suffix (s : jsstring) :
  exists ws, s = ws ++ trimStart s /\ blank ws = true.
Proof.
  induction s as [|c r [ws [IH Hws]]]; cbn [trimStart].
  - now exists [].
  - destruct (is_trimmed_char c) eqn:E.
    + exists (c :: ws). cbn [List.app]. split; [now f_equal|].
      unfold blank in *. cbn [forallb]. now rewrite E.
    + now exists [].
Qed.

Lemma blank_app (s t : jsstring) :
  blank (s ++ t) = blank s && blank t.
Proof. apply forallb_app. Qed.

Lemma blank_rev (s : jsstring) : blank (rev s) = blank s.
Proof.
  induction s as [|c r IH]; [reflexivity|].
  cbn [rev]. rewrite blank_app, IH. unfold blank. cbn [forallb].
  rewrite andb_true_r. apply andb_comm.
Qed.

(** A line trims to the empty string exactly when it is whitespace
    only. *)
Lemma trim_nil (s : jsstring) : trim s = [] <-> blank s = true.
Proof.
  unfold trim, trimEnd.
  destruct (trimStart_suffix s) as [ws [Hs Hws]].
  split.
  - intros H. apply (f_equal (@rev char)) in H.
    rewrite rev_involutive in H. cbn [rev] in H.
    apply trimStart_nil in H. rewrite blank_rev in H.
    rewrite Hs, blank_app, Hws, H. reflexivity.
  - intros H. apply trimStart_nil in H. rewrite H. reflexivity.
Qed.

Lemma truthy_trim (line : jsstring) :
  truthy (trim line) = negb (blank line).
Proof.
  destruct (blank line) eqn:E.
  - apply trim_nil in E. now rewrite E.
  - destruct (trim line) eqn:T; [|reflexivity].
    apply trim_nil in T. congruence.
Qed.

Lemma parseManual_entries (buffer : jsstring) :
  parseManual buffer
  = map_indexed (fun line index => freeform_entry index line)
      (retained buffer).
Proof.
  unfold parseManual, forEach, map_indexed, retained.
  rewrite (filter_ext _ (fun line => negb (blank line)) truthy_trim).
  rewrite (forEach_from_ext _
             (fun line index st => push st (freeform_entry index line))).
  - now rewrite forEach_push_all.
  - intros line index st. unfold freeform_entry.
    now destruct (split 124 line) as [|a [|b [|c r]]].
Qed.

Lemma freeform_entry_timed (index : nat) (line expr words : jsstring) :
  split 124 line = [expr; words] ->
  freeform_entry index line
  = {| time := freeform_time (trim expr); text := trim words |}.
Proof. intros H. unfold freeform_entry. now rewrite H. Qed.

Lemma freeform_entry_untimed (index : nat) (line : jsstring) :
  length (split 124 line) <> 2%nat ->
  freeform_entry index line
  = {| time := mul (of_nat index) (of_Z 3); text := trim line |}.
Proof.
  intros H. unfold freeform_entry.
  destruct (split 124 line) as [|a [|b [|c r]]]; try reflexivity.
  now contradiction H.
Qed.

Lemma parseManual_nth (buffer : jsstring) (i : nat) :
  nth_error (parseManual buffer) i
  = option_map (freeform_entry i) (nth_error (retained buffer) i).
Proof.
  rewrite parseManual_entries. unfold map_indexed.
  now rewrite nth_error_map_from.
Qed.

(** C3.  The freeform parser drops the whitespace-only lines and turns
    the retained line at position [index] into one entry, in that order:
    for a line of exactly two [|]-separated parts the text is the second
    part trimmed and the time is read from the first, otherwise the text
    is the whole trimmed line and the time is [index * 3].  The result
    is not sorted by time. *)
Theorem parseManual_contract :
  (forall buffer,
      parseManual buffer
      = map_indexed (fun line index => freeform_entry index line)
          (retained buffer))
  /\ (forall index line expr words,
         split 124 line = [expr; words] ->
         freeform_entry index line
         = {| time := freeform_time (trim expr); text := trim words |})
  /\ (forall index line,
         length (split 124 line) <> 2%nat ->
         freeform_entry index line
         = {| time := mul (of_nat index) (of_Z 3); text := trim line |})
  /\ parseManual (lit "1:23|hello") = [line_at 83 "hello"]
  /\ parseManual (lit "90|hello") = [line_at 90 "hello"]
  /\ parseManual (lit "0:01.5|a" ++ [10%N; 32%N; 10%N] ++ lit "b"
                  ++ [10%N] ++ lit "just text")
     = [ {| time := Fin (3 # 2); text := lit "a" |};
         line_at 3 "b"; line_at 6 "just text" ]
  /\ parseManual (lit "5|later" ++ [10%N] ++ lit "1|sooner")
     = [line_at 5 "later"; line_at 1 "sooner"].
Proof.
  split; [exact parseManual_entries|]. split; [|split].
  - exact freeform_entry_timed.
  - exact freeform_entry_untimed.
  - repeat split; vm_compute; reflexivity.
Qed.

Lemma parseManual_contract_witness :
  split 124 (lit "1:23|hello") = [lit "1:23"; lit "hello"]
  /\ freeform_entry 7 (lit "1:23|hello") = line_at 83 "hello"
  /\ length (split 124 (lit "a|b|c")) <> 2%nat
  /\ freeform_entry 7 (lit "a|b|c") = line_at 21 "a|b|c".
Proof.
  destruct parseManual_contract as [_ [Htimed [Hplain _]]].
  split; [reflexivity|]. split.
  - rewrite (Htimed 7%nat (lit "1:23|hello") (lit "1:23") (lit "hello") eq_refl).
    reflexivity.
  - assert (H : length (split 124 (lit "a|b|c")) <> 2%nat) by discriminate.
    split; [exact H|].
    rewrite (Hplain 7%nat (lit "a|b|c") H). reflexivity.
Defined.

(** C10.  The freeform parser emits one entry per retained line, the
    entry at position [i] being the one of the retained line at position
    [i]; a line whose time expression is not numeric is kept, with [NaN]
    as its time. *)
Theorem parseManual_one_per_line (buffer : jsstring) :
  length (parseManual buffer) = length (retained buffer)
  /\ (forall i line,
         nth_error (retained buffer) i = Some line ->
         nth_error (parseManual buffer) i = Some (freeform_entry i line))
  /\ (forall i, nth_error (retained buffer) i = None ->
                nth_error (parseManual buffer) i = None)
  /\ parseManual (lit "abc|hello") = [ {| time := NaN; text := lit "hello" |} ].
Proof.
  split; [|split; [|split]].
  - rewrite parseManual_entries. apply length_map_from.
  - intros i line H. now rewrite parseManual_nth, H.
  - intros i H. now rewrite parseManual_nth, H.
  - reflexivity.
Qed.

Lemma parseManual_one_per_line_witness :
  nth_error (retained (lit "abc|hello")) 0 = Some (lit "abc|hello")
  /\ nth_error (parseManual (lit "abc|hello")) 0
     = Some {| time := NaN; text := lit "hello" |}
  /\ nth_error (retained (lit "abc|hello")) 1 = None
  /\ nth_error (parseManual (lit "abc|hello")) 1 = None.
Proof.
  destruct (parseManual_one_per_line (lit "abc|hello"))
    as [_ [Hsome [Hnone _]]].
  split; [reflexivity|]. split.
  - rewrite (Hsome 0%nat (lit "abc|hello") eq_refl). reflexivity.
  - split; [reflexivity|]. exact (Hnone 1%nat eq_refl).
Defined.

(** C9 (amended).  Every entry of the LRC parser has a non-negative
    time, and so has every entry the freeform parser makes for a line
    without an explicit time. *)
Theorem times_nonnegative :
  (forall content e,
      In e (parseLRCFile content) -> ge (time e) (of_Z 0) = true)
  /\ (forall buffer i line e,
         nth_error (retained buffer) i = Some line ->
         length (split 124 line) <> 2%nat ->
         nth_error (parseManual buffer) i = Some e ->
         ge (time e) (of_Z 0) = true).
Proof.
  split.
  - intros content e He.
    pose proof (parseLRCFile_proper content) as H.
    rewrite Forall_forall in H. destruct (H e He) as [q [Hq Hpos]].
    rewrite Hq. cbn [ge of_Z]. now apply Qle_bool_iff.
  - intros buffer i line e Hline Hparts He.
    rewrite parseManual_nth, Hline in He. injection He as <-.
    rewrite (freeform_entry_untimed i line Hparts).
    cbn [time mul of_nat of_Z ge]. apply Qle_bool_iff.
    rewrite Qred_correct.
    assert (H : (0 <= Z.of_nat i)%Z) by lia.
    rewrite Zle_Qle in H. change (inject_Z 0) with 0%Q in H |- *.
    change (inject_Z 3) with 3%Q. lra.
Qed.

Lemma times_nonnegative_witness :
  In (line_at 1 "y") (parseLRCFile (lit "x[00:01.00]y"))
  /\ ge (time (line_at 1 "y")) (of_Z 0) = true
  /\ nth_error (retained (lit "1|a|b")) 0 = Some (lit "1|a|b")
  /\ length (split 124 (lit "1|a|b")) <> 2%nat
  /\ nth_error (parseManual (lit "1|a|b")) 0 = Some (line_at 0 "1|a|b")
  /\ ge (time (line_at 0 "1|a|b")) (of_Z 0) = true.
Proof.
  assert (H : In (line_at 1 "y") (parseLRCFile (lit "x[00:01.00]y")))
    by (left; reflexivity).
  assert (Hparts : length (split 124 (lit "1|a|b")) <> 2%nat) by discriminate.
  split; [exact H|]. split.
  - exact (proj1 times_nonnegative (lit "x[00:01.00]y") (line_at 1 "y") H).
  - split; [reflexivity|]. split; [exact Hparts|]. split; [reflexivity|].
    exact (proj2 times_nonnegative (lit "1|a|b") 0%nat (lit "1|a|b")
             (line_at 0 "1|a|b") eq_refl Hparts eq_refl).
Defined.

(** An explicit time is stored as it parses: negative, or not a number. *)
Lemma parseManual_negative_counterexample :
  parseManual (lit "-5|x") = [line_at (-5) "x"]
  /\ ge (time (line_at (-5) "x")) (of_Z 0) = false
  /\ parseManual (lit "soon|x") = [ {| time := NaN; text := lit "x" |} ]
  /\ ge NaN (of_Z 0) = false.
Proof. repeat split. Qed.

(** ** The upload handler *)

(** C6 (amended).  With no file, or a file whose name does not end in
    [.lrc], the handler only shows an error notice and the songs stay
    as they are.  The hook is invoked only for a file named [*.lrc]
    whose text was read, and then with the whole result of the parser,
    an empty result included, followed by a success notice. *)
Theorem handleLRCUpload_outcomes :
  (forall hook file,
      (file = None
       \/ exists f, file = Some f /\ endsWith (name f) (lit ".lrc") = false) ->
      handleLRCUpload hook file
      = [toast_error (lit "Please upload a valid .lrc file")]
      /\ forall a, upload a file = a)
  /\ (forall f content,
         endsWith (name f) (lit ".lrc") = true ->
         contents f = Some content ->
         handleLRCUpload true (Some f)
         = [ lyrics_update (parseLRCFile content);
             toast_success (lit "Lyrics uploaded successfully!") ]
         /\ forall a,
             upload a (Some f) = handleLyricsUpdate a (parseLRCFile content))
  /\ (forall hook file l,
         In (lyrics_update l) (handleLRCUpload hook file) ->
         exists f content,
           file = Some f /\ endsWith (name f) (lit ".lrc") = true
           /\ contents f = Some content /\ l = parseLRCFile content).
Proof.
  split; [|split].
  - intros hook file [-> | [f [-> Hname]]]; unfold upload, handleLRCUpload.
    + now split.
    + rewrite Hname. now split.
  - intros f content Hname Hread. unfold upload, handleLRCUpload.
    rewrite Hname, Hread. now split.
  - intros hook file l. unfold handleLRCUpload.
    destruct file as [f|]; [|intros [H|[]]; discriminate].
    destruct (endsWith (name f) (lit ".lrc")) eqn:Hname;
      [|intros [H|[]]; discriminate].
    destruct (contents f) as [content|] eqn:Hread; [|intros []].
    intros H. exists f, content. repeat split; try assumption.
    unfold onLyricsUpdate in H. destruct hook; cbn in H.
    + destruct H as [H|[H|[]]]; [now injection H | discriminate].
    + destruct H as [H|[]]. discriminate.
Qed.

Lemma handleLRCUpload_outcomes_witness :
  endsWith (name text_file) (lit ".lrc") = false
  /\ upload start (Some text_file) = start
  /\ endsWith (name tagged_file) (lit ".lrc") = true
  /\ upload start (Some tagged_file)
     = handleLyricsUpdate start [line_at 1 "y"]
  /\ In (lyrics_update [line_at 1 "y"])
        (handleLRCUpload true (Some tagged_file))
  /\ exists f content,
       Some tagged_file = Some f /\ contents f = Some content
       /\ [line_at 1 "y"] = parseLRCFile content.
Proof.
  destruct handleLRCUpload_outcomes as [Hrejected [Haccepted Honly]].
  assert (H : endsWith (name text_file) (lit ".lrc") = false) by reflexivity.
  assert (Hin : In (lyrics_update [line_at 1 "y"])
                  (handleLRCUpload true (Some tagged_file)))
    by (left; reflexivity).
  split; [exact H|]. split.
  - apply (Hrejected true (Some text_file)).
    right. exists text_file. split; [reflexivity | exact H].
  - split; [reflexivity|]. split.
    + exact (proj2 (Haccepted tagged_file (lit "[00:01.00]y")
                      eq_refl eq_refl) start).
    + split; [exact Hin|].
      destruct (Honly true (Some tagged_file) [line_at 1 "y"] Hin)
        as (f & content & Hf & _ & Hread & Hl).
      now exists f, content.
Defined.

(** An accepted file without any tag replaces the lyrics of the current
    song by the empty sequence, under a success notice. *)
Lemma handleLRCUpload_empty_counterexample :
  endsWith (name untagged_file) (lit ".lrc") = true
  /\ option_map parseLRCFile (contents untagged_file) = Some []
  /\ handleLRCUpload true (Some untagged_file)
     = [ lyrics_update [];
         toast_success (lit "Lyrics uploaded successfully!") ]
  /\ option_map (@length LyricLine) (currentLyrics start) = Some 5%nat
  /\ currentLyrics (upload start (Some untagged_file)) = Some [].
Proof. repeat split. Qed.

(** ** Splitting and joining *)

Lemma free_of_cons (sep c : char) (s : jsstring) :
  free_of sep (c :: s) <-> N.eqb c sep = false /\ free_of sep s.
Proof.
  unfold free_of, includes. cbn [existsb]. rewrite orb_false_iff.
  now rewrite (N.eqb_sym sep c).
Qed.

Lemma free_of_app (sep : char) (s t : jsstring) :
  free_of sep (s ++ t) <-> free_of sep s /\ free_of sep t.
Proof.
  unfold free_of, includes. rewrite existsb_app. apply orb_false_iff.
Qed.

Lemma split_free (sep : char) (s : jsstring) :
  free_of sep s -> split sep s = [s].
Proof.
  induction s as [|c r IH]; [reflexivity|].
  rewrite free_of_cons. intros [Hc Hr]. cbn [split].
  now rewrite Hc, (IH Hr).
Qed.

Lemma split_app_sep (sep : char) (s t : jsstring) :
  free_of sep s -> split sep (s ++ sep :: t) = s :: split sep t.
Proof.
  induction s as [|c r IH].
  - intros _. cbn [List.app split]. now rewrite N.eqb_refl.
  - rewrite free_of_cons. intros [Hc Hr]. cbn [List.app split].
    now rewrite Hc, (IH Hr).
Qed.

(** Splitting what was joined gives the lines back (the empty array
    joins to the empty string, which splits into one empty line). *)
Lemma split_join (sep : N) (lines : list jsstring) :
  Forall (free_of sep) lines -> lines <> [] ->
  split sep (join [sep] lines) = lines.
Proof.
  induction 1 as [|l r Hl Hr IH]; [congruence|]. intros _.
  destruct r as [|l' r'].
  - cbn [join]. now apply split_free.
  - change (join [sep] (l :: l' :: r')) with (l ++ sep :: join [sep] (l' :: r')).
    rewrite (split_app_sep sep l _ Hl). now rewrite IH.
Qed.

Lemma lines_through_join (lines1 lines2 : list jsstring) (line : jsstring)
  (f : jsstring -> list LyricLine) :
  Forall (free_of 10) (lines1 ++ line :: lines2) ->
  f line = [] -> f [] = [] ->
  flat_map f (split 10 (join [10%N] (lines1 ++ line :: lines2)))
  = flat_map f (split 10 (join [10%N] (lines1 ++ lines2))).
Proof.
  intros Hfree Hline Hnil.
  assert (Hfree' : Forall (free_of 10) (lines1 ++ lines2)).
  { apply Forall_app in Hfree. destruct Hfree as [H1 H2].
    apply Forall_app. split; [exact H1 | exact (Forall_inv_tail H2)]. }
  rewrite (split_join 10 _ Hfree) by now destruct lines1.
  rewrite flat_map_app. cbn [flat_map]. rewrite Hline. cbn [List.app].
  destruct (lines1 ++ lines2) as [|l r] eqn:E.
  - apply app_eq_nil in E. destruct E as [-> ->].
    cbn [flat_map join split]. now rewrite Hnil.
  - rewrite (split_join 10 _ Hfree') by discriminate.
    rewrite <- E. now rewrite flat_map_app.
Qed.

Lemma retained_through_join (lines1 lines2 : list jsstring) (line : jsstring) :
  Forall (free_of 10) (lines1 ++ line :: lines2) ->
  blank line = true ->
  retained (join [10%N] (lines1 ++ line :: lines2))
  = retained (join [10%N] (lines1 ++ lines2)).
Proof.
  intros Hfree Hblank. unfold retained.
  assert (Hfree' : Forall (free_of 10) (lines1 ++ lines2)).
  { apply Forall_app in Hfree. destruct Hfree as [H1 H2].
    apply Forall_app. split; [exact H1 | exact (Forall_inv_tail H2)]. }
  rewrite (split_join 10 _ Hfree) by now destruct lines1.
  rewrite filter_app. cbn [filter]. rewrite Hblank. cbn [negb].
  destruct (lines1 ++ lines2) as [|l r] eqn:E.
  - apply app_eq_nil in E. now destruct E as [-> ->].
  - rewrite (split_join 10 _ Hfree') by discriminate.
    rewrite <- E. now rewrite filter_app.
Qed.

Lemma no_tag_no_entry (line : jsstring) :
  (forall k, ~ has_tag_at line k) -> lrc_entry line = None.
Proof.
  intros Hno. pose proof (lrc_entry_yields line) as Hy.
  destruct (lrc_entry line) as [e|]; [|reflexivity].
  destruct Hy as (k & m1 & m2 & s1 & s2 & h1 & h2 & rest & Htag & _).
  exfalso. apply (Hno k). now exists m1, m2, s1, s2, h1, h2, rest.
Qed.

(** C7 (amended).  In the LRC parser a line that holds no tag is dropped
    on its own: the result is the one of the input without that line.
    In the freeform parser the same holds for a whitespace-only line,
    and for no other line: a line of two parts whose time expression is
    not a number is kept, as an entry whose time is [NaN]. *)
Theorem unparsable_lines :
  (forall lines1 line lines2,
      Forall (free_of 10) (lines1 ++ line :: lines2) ->
      (forall k, ~ has_tag_at line k) ->
      parseLRCFile (join [10%N] (lines1 ++ line :: lines2))
      = parseLRCFile (join [10%N] (lines1 ++ lines2)))
  /\ (forall lines1 line lines2,
         Forall (free_of 10) (lines1 ++ line :: lines2) ->
         blank line = true ->
         parseManual (join [10%N] (lines1 ++ line :: lines2))
         = parseManual (join [10%N] (lines1 ++ lines2)))
  /\ (forall buffer i line expr words,
         nth_error (retained buffer) i = Some line ->
         split 124 line = [expr; words] ->
         freeform_time (trim expr) = NaN ->
         nth_error (parseManual buffer) i
         = Some {| time := NaN; text := trim words |}).
Proof.
  split; [|split].
  - intros lines1 line lines2 Hfree Hno.
    rewrite !parseLRCFile_lines. f_equal.
    apply lines_through_join;
      [exact Hfree | | reflexivity].
    now rewrite (no_tag_no_entry line Hno).
  - intros lines1 line lines2 Hfree Hblank.
    rewrite !parseManual_entries.
    now rewrite (retained_through_join lines1 lines2 line Hfree Hblank).
  - intros buffer i line expr words Hline Hparts Htime.
    rewrite parseManual_nth, Hline. cbn [option_map].
    rewrite (freeform_entry_timed i line expr words Hparts).
    now rewrite Htime.
Qed.

Lemma unparsable_lines_witness :
  Forall (free_of 10) tagged_around_junk
  /\ (forall k, ~ has_tag_at (lit "junk") k)
  /\ parseLRCFile (join [10%N] tagged_around_junk)
     = parseLRCFile
         (join [10%N] ([lit "[00:01.00]a"] ++ [lit "[00:02.00]b"]))
  /\ Forall (free_of 10) timed_around_blank
  /\ blank (lit "  ") = true
  /\ parseManual (join [10%N] timed_around_blank)
     = parseManual (join [10%N] ([lit "1|a"] ++ [lit "2|b"]))
  /\ freeform_time (trim (lit "soon")) = NaN
  /\ nth_error (parseManual (lit "soon|hello")) 0
     = Some {| time := NaN; text := trim (lit "hello") |}.
Proof.
  destruct unparsable_lines as [Htagged [Hblank Hkept]].
  assert (Hfree' : Forall (free_of 10) timed_around_blank)
    by (repeat constructor).
  assert (Hfree : Forall (free_of 10) tagged_around_junk)
    by (repeat constructor).
  assert (Hno : forall k, ~ has_tag_at (lit "junk") k).
  { intros k H. apply has_tag_at_tag_here in H. apply H.
    now apply lrc_match_None. }
  split; [exact Hfree|]. split; [exact Hno|]. split.
  - exact (Htagged [lit "[00:01.00]a"] (lit "junk") [lit "[00:02.00]b"]
             Hfree Hno).
  - split; [exact Hfree'|]. split; [reflexivity|]. split.
    + exact (Hblank [lit "1|a"] (lit "  ") [lit "2|b"] Hfree' eq_refl).
    + split; [reflexivity|].
      exact (Hkept (lit "soon|hello") 0%nat (lit "soon|hello") (lit "soon")
               (lit "hello") eq_refl eq_refl eq_refl).
Defined.

(** A freeform line whose time expression cannot be parsed is not
    dropped: it contributes an entry. *)
Lemma unparsable_freeform_counterexample :
  parseFloat (lit "soon") = NaN
  /\ parseManual (lit "0:01|a" ++ [10%N] ++ lit "soon|hello")
     = [line_at 1 "a"; {| time := NaN; text := lit "hello" |}].
Proof. split; reflexivity. Qed.

(** ** Decimal digits *)

Lemma digit_facts (c : char) :
  is_digit c = true ->
  is_trimmed_char c = false
  /\ N.eqb c 45 = false /\ N.eqb c 43 = false
  /\ N.eqb c 120 = false /\ N.eqb c 88 = false
  /\ N.eqb c 10 = false /\ N.eqb c 124 = false /\ N.eqb c 58 = false
  /\ radix_digit 10 c = Some (digit_val c).
Proof.
  intros H. apply is_digit_cases in H. cbn [In] in H.
  repeat (destruct H as [<- | H]); try contradiction; now repeat split.
Qed.

Lemma digit_char_is_digit (d : Z) :
  (0 <= d < 10)%Z ->
  is_digit (digit_char d) = true /\ digit_val (digit_char d) = d.
Proof.
  intros Hd. unfold is_digit, digit_val, digit_char.
  rewrite andb_true_iff, !N.leb_le. lia.
Qed.

Lemma decimal_value_app (v : Z) (s t : jsstring) :
  decimal_value v (s ++ t) = decimal_value (decimal_value v s) t.
Proof. apply fold_left_app. Qed.

Lemma digits_fuel_S (f : nat) (n : Z) (acc : jsstring) :
  digits_fuel (S f) n acc
  = if (n <? 10)%Z then digit_char (n mod 10) :: acc
    else digits_fuel f (n / 10) (digit_char (n mod 10) :: acc).
Proof. reflexivity. Qed.

(** The digits printed for [n], in front of [acc]. *)
Lemma digits_fuel_spec (fuel : nat) :
  forall n acc,
    (0 <= n < 10 ^ Z.of_nat (S fuel))%Z ->
    exists ds,
      digits_fuel (S fuel) n acc = ds ++ acc
      /\ ds <> []
      /\ Forall (fun c => is_digit c = true) ds
      /\ (forall v, decimal_value v ds
                    = (v * 10 ^ Z.of_nat (length ds) + n)%Z)
      /\ (forall k, (n < 10 ^ Z.of_nat (S k))%Z -> (length ds <= S k)%nat).
Proof.
  induction fuel as [|f IH]; intros n acc Hn;
    rewrite digits_fuel_S;
    assert (Hmod : (0 <= n mod 10 < 10)%Z) by (apply Z.mod_pos_bound; lia);
    destruct (digit_char_is_digit _ Hmod) as [Hdig Hval];
    destruct (n <? 10)%Z eqn:E.
  1, 3: apply Z.ltb_lt in E; exists [digit_char (n mod 10)];
    repeat split;
    [ discriminate
    | now repeat constructor
    | intros v; cbn; rewrite Hval, Z.mod_small by lia; lia
    | intros k _; cbn; lia ].
  - apply Z.ltb_ge in E. change (10 ^ Z.of_nat 1)%Z with 10%Z in Hn. lia.
  - apply Z.ltb_ge in E.
    assert (Hdiv : (0 <= n / 10 < 10 ^ Z.of_nat (S f))%Z).
    { split; [apply Z.div_pos; lia|].
      apply Z.div_lt_upper_bound; [lia|].
      rewrite (Nat2Z.inj_succ (S f)), Z.pow_succ_r in Hn by lia. lia. }
    destruct (IH (n / 10)%Z (digit_char (n mod 10) :: acc) Hdiv)
      as (ds & Heq & Hne & Hall & Hv & Hlen).
    exists (ds ++ [digit_char (n mod 10)]). repeat split.
    + rewrite Heq, <- app_assoc. reflexivity.
    + intros H. now apply app_eq_nil in H.
    + apply Forall_app. split; [exact Hall | now repeat constructor].
    + intros v. rewrite decimal_value_app, Hv. cbn.
      rewrite Hval, length_app. cbn [length].
      replace (Z.of_nat (length ds + 1)) with (Z.succ (Z.of_nat (length ds)))
        by lia.
      rewrite Z.pow_succ_r by lia.
      pose proof (Z.div_mod n 10 ltac:(lia)). lia.
    + intros k Hk. rewrite length_app. cbn [length].
      destruct k as [|k].
      * change (10 ^ Z.of_nat 1)%Z with 10%Z in Hk. lia.
      * assert (length ds <= S k)%nat; [|lia].
        apply Hlen. apply Z.div_lt_upper_bound; [lia|].
        rewrite (Nat2Z.inj_succ (S k)), Z.pow_succ_r in Hk by lia. lia.
Qed.

Lemma digits_spec (n : Z) :
  (0 <= n)%Z ->
  digits n <> []
  /\ Forall (fun c => is_digit c = true) (digits n)
  /\ decimal_value 0 (digits n) = n
  /\ (forall k, (n < 10 ^ Z.of_nat (S k))%Z -> (length (digits n) <= S k)%nat).
Proof.
  intros Hn. unfold digits.
  assert (Hfuel : (0 <= n < 10 ^ Z.of_nat (S (Z.to_nat (Z.log2 n))))%Z).
  { split; [exact Hn|].
    rewrite Nat2Z.inj_succ, Z2Nat.id by apply Z.log2_nonneg.
    destruct (Z.eq_dec n 0) as [->|Hz]; [reflexivity|].
    assert (Hlog : (n < 2 ^ Z.succ (Z.log2 n))%Z)
      by (apply Z.log2_spec; lia).
    eapply Z.lt_le_trans; [exact Hlog|].
    apply Z.pow_le_mono_l. lia. }
  destruct (digits_fuel_spec _ n [] Hfuel) as (ds & Heq & Hne & Hall & Hv & Hlen).
  rewrite app_nil_r in Heq. rewrite Heq. repeat split; try assumption.
  rewrite Hv. lia.
Qed.

Lemma scan_digits_all (s : jsstring) :
  Forall (fun c => is_digit c = true) s ->
  forall v seen,
    scan_digits 10 v seen s
    = (decimal_value v s, match s with [] => seen | _ => true end, []).
Proof.
  induction 1 as [|c r Hc Hr IH]; intros v seen; [reflexivity|].
  cbn [scan_digits decimal_value fold_left].
  destruct (digit_facts c Hc) as (_ & _ & _ & _ & _ & _ & _ & _ & Hrd).
  rewrite Hrd, IH. unfold decimal_value. now destruct r.
Qed.

(** Reading back the digits printed for a natural number. *)
Lemma parseInt_digits (n : Z) :
  (0 <= n)%Z -> parseInt (digits n) = of_Z n.
Proof.
  intros Hn. destruct (digits_spec n Hn) as (Hne & Hall & Hv & _).
  destruct (digits n) as [|c r] eqn:E; [congruence|].
  pose proof (Forall_inv Hall) as Hc. cbn beta in Hc.
  destruct (digit_facts c Hc) as (Hws & H45 & H43 & _).
  unfold parseInt. cbn [trimStart]. rewrite Hws.
  unfold strip_sign. rewrite H45, H43.
  assert (Hscan : scan_digits 10 0 false (c :: r) = (n, true, [])).
  { rewrite (scan_digits_all _ Hall). now rewrite Hv. }
  destruct r as [|x r'].
  - now rewrite Hscan.
  - pose proof (Forall_inv (Forall_inv_tail Hall)) as Hx. cbn beta in Hx.
    destruct (digit_facts x Hx) as (_ & _ & _ & H120 & H88 & _).
    rewrite H120, H88, andb_false_r. now rewrite Hscan.
Qed.

(** ** Arithmetic of the edit buffer *)

Lemma Qfloor_unique (q : Q) (k : Z) :
  (inject_Z k <= q)%Q -> (q < inject_Z (k + 1))%Q -> Qfloor q = k.
Proof.
  intros Hlo Hhi.
  assert (H1 : (k <= Qfloor q)%Z).
  { rewrite <- (Qfloor_Z k). now apply Qfloor_resp_le. }
  assert (H2 : (Qfloor q < k + 1)%Z).
  { rewrite Zlt_Qlt. eapply Qle_lt_trans; [apply Qfloor_le | exact Hhi]. }
  lia.
Qed.

Lemma inject_Z_sub (x y : Z) : inject_Z (x - y) = (inject_Z x - inject_Z y)%Q.
Proof.
  unfold Z.sub, Qminus. now rewrite inject_Z_plus, inject_Z_opp.
Qed.

(** Minutes, and hundredths of the remaining seconds, of a time. *)
Lemma minutes_and_hundredths (t : Q) :
  (0 <= t)%Q ->
  let M := Qfloor (t / inject_Z 60) in
  let n := Qfloor ((t - inject_Z 60 * inject_Z M) * inject_Z 100 + (1 # 2)) in
  (0 <= M)%Z /\ (0 <= n <= 6000)%Z
  /\ (0 <= t - inject_Z 60 * inject_Z M)%Q
  /\ (t - inject_Z 60 * inject_Z M < 60)%Q
  /\ (inject_Z M * inject_Z 60 + (n # 100)
      == Qfloor (t * 100 + (1 # 2)) # 100)%Q.
Proof.
  intros Ht M n.
  pose proof (Qfloor_le (t / inject_Z 60)) as Hlo.
  pose proof (Qlt_floor (t / inject_Z 60)) as Hhi.
  fold M in Hlo, Hhi. rewrite inject_Z_plus in Hhi.
  change (inject_Z 1) with 1%Q in Hhi.
  change (inject_Z 60) with 60%Q in *. change (inject_Z 100) with 100%Q in *.
  unfold Qdiv in Hlo, Hhi. change (/ 60)%Q with (1 # 60)%Q in Hlo, Hhi.
  assert (HM : (0 <= M)%Z).
  { rewrite <- (Qfloor_Z 0). apply Qfloor_resp_le.
    change (inject_Z 0) with 0%Q. unfold Qdiv.
    change (/ 60)%Q with (1 # 60)%Q. lra. }
  assert (Hx0 : (0 <= t - 60 * inject_Z M)%Q) by lra.
  assert (Hx1 : (t - 60 * inject_Z M < 60)%Q) by lra.
  set (N := Qfloor (t * 100 + (1 # 2))).
  pose proof (Qfloor_le (t * 100 + (1 # 2))) as HNlo.
  pose proof (Qlt_floor (t * 100 + (1 # 2))) as HNhi.
  fold N in HNlo, HNhi. rewrite inject_Z_plus in HNhi.
  change (inject_Z 1) with 1%Q in HNhi.
  assert (Hn : n = (N - 6000 * M)%Z).
  { apply Qfloor_unique.
    - rewrite inject_Z_sub, inject_Z_mult.
      change (inject_Z 6000) with 6000%Q. lra.
    - rewrite inject_Z_plus, inject_Z_sub, inject_Z_mult.
      change (inject_Z 6000) with 6000%Q. change (inject_Z 1) with 1%Q. lra. }
  assert (Hn0 : (0 <= n)%Z).
  { rewrite <- (Qfloor_Z 0). apply Qfloor_resp_le.
    change (inject_Z 0) with 0%Q. lra. }
  assert (Hn1 : (n < 6001)%Z).
  { rewrite Zlt_Qlt.
    eapply Qle_lt_trans; [apply Qfloor_le|].
    change (inject_Z 6001) with 6001%Q. lra. }
  repeat split; try assumption; try lia.
  rewrite (Qmake_Qdiv n 100), (Qmake_Qdiv N 100), Hn.
  rewrite inject_Z_sub, inject_Z_mult.
  change (inject_Z 6000) with 6000%Q. change (inject_Z (Z.pos 100)) with 100%Q.
  unfold Qdiv. change (/ 100)%Q with (1 # 100)%Q. lra.
Qed.

Lemma round_hundredths_close (t : Q) :
  (- (1 # 200) <= round_hundredths t - t)%Q
  /\ (round_hundredths t - t <= 1 # 200)%Q.
Proof.
  unfold round_hundredths. rewrite Qred_correct.
  pose proof (Qfloor_le (t * 100 + (1 # 2))) as Hlo.
  pose proof (Qlt_floor (t * 100 + (1 # 2))) as Hhi.
  rewrite inject_Z_plus in Hhi. change (inject_Z 1) with 1%Q in Hhi.
  rewrite (Qmake_Qdiv _ 100). change (inject_Z (Z.pos 100)) with 100%Q.
  unfold Qdiv. change (/ 100)%Q with (1 # 100)%Q. split; lra.
Qed.

(** ** The serializer *)

Lemma number_eqb_eq (x y : number) : number_eqb x y = true -> x = y.
Proof.
  destruct x as [|a|[p1 p2]], y as [|b|[q1 q2]]; cbn; try discriminate.
  - reflexivity.
  - intros H. apply Bool.eqb_prop in H. now subst.
  - rewrite andb_true_iff, Z.eqb_eq, Pos.eqb_eq. now intros [-> ->].
Qed.

Lemma seconds_field_checked :
  forallb seconds_field_ok (map Z.of_nat (seq 0 (Z.to_nat 6001))) = true.
Proof. vm_compute. reflexivity. Qed.

Lemma seconds_field_spec (n : Z) :
  (0 <= n <= 6000)%Z ->
  free_of 10 (seconds_field n) /\ free_of 124 (seconds_field n)
  /\ free_of 58 (seconds_field n)
  /\ (exists c r, rev (seconds_field n) = c :: r /\ is_digit c = true)
  /\ parseFloat (seconds_field n) = Fin (Qred (n # 100)).
Proof.
  intros Hn. pose proof seconds_field_checked as H.
  rewrite forallb_forall in H. specialize (H n).
  assert (Hin : In n (map Z.of_nat (seq 0 (Z.to_nat 6001)))).
  { apply in_map_iff. exists (Z.to_nat n). split; [lia|].
    apply in_seq. lia. }
  specialize (H Hin). unfold seconds_field_ok in H. cbv zeta in H.
  rewrite !andb_true_iff, !negb_true_iff in H.
  destruct H as [[[[H10 H124] H58] Hlast] Hparse].
  repeat split; try assumption.
  - destruct (rev (seconds_field n)) as [|c r]; [discriminate|].
    now exists c, r.
  - now apply number_eqb_eq.
Qed.

Lemma digits_free_of (sep : char) (s : jsstring) :
  (forall c, is_digit c = true -> N.eqb c sep = false) ->
  Forall (fun c => is_digit c = true) s -> free_of sep s.
Proof.
  intros Hsep. induction 1 as [|c r Hc Hr IH]; [reflexivity|].
  apply free_of_cons. split; [now apply Hsep | exact IH].
Qed.

Lemma trimStart_id (c : char) (r : jsstring) :
  is_trimmed_char c = false -> trimStart (c :: r) = c :: r.
Proof. intros H. cbn [trimStart]. now rewrite H. Qed.

(** A string that neither starts nor ends with whitespace is its own
    trim. *)
Lemma trim_id (s : jsstring) (c d : char) (r r' : jsstring) :
  s = c :: r -> rev s = d :: r' ->
  is_trimmed_char c = false -> is_trimmed_char d = false ->
  trim s = s.
Proof.
  intros Hs Hrev Hc Hd. unfold trim, trimEnd.
  rewrite Hs, (trimStart_id c r Hc), <- Hs, Hrev, (trimStart_id d r' Hd).
  now rewrite <- Hrev, rev_involutive.
Qed.

Lemma toString_minutes (t : Q) :
  (0 <= t)%Q -> (t < inject_Z (60 * 10 ^ 21))%Q ->
  toString (floor (div (Fin t) (of_Z 60)))
  = digits (Qfloor (t / inject_Z 60)).
Proof.
  intros H0 H1. unfold of_Z. cbn [div].
  change (Qzero (inject_Z 60)) with false. cbn iota.
  cbn [floor]. unfold of_Z. cbn [toString]. rewrite Qfloor_Z.
  rewrite Qred_correct.
  set (M := Qfloor (t / inject_Z 60)).
  destruct (minutes_and_hundredths t H0) as (HM & _). fold M in HM.
  assert (HM' : (M < 10 ^ Z.of_nat 21)%Z).
  { rewrite Zlt_Qlt.
    eapply Qle_lt_trans; [apply Qfloor_le|].
    change (inject_Z (60 * 10 ^ 21)) with (60 * inject_Z (10 ^ 21))%Q in H1.
    change (Z.of_nat 21) with 21%Z.
    unfold Qdiv. change (/ inject_Z 60)%Q with (1 # 60)%Q. lra. }
  unfold toString_integral.
  destruct (Z.ltb_spec M 0) as [Hneg|_]; [lia|].
  unfold toString_unsigned.
  destruct (digits_spec M HM) as (_ & _ & _ & Hlen).
  specialize (Hlen 20%nat HM').
  destruct (Nat.leb_spec (length (digits M)) 21) as [_|Hgt]; [reflexivity|lia].
Qed.

Lemma rem_seconds (t : Q) :
  (0 <= t)%Q ->
  rem (Fin t) (of_Z 60)
  = Fin (Qred (t - inject_Z 60 * inject_Z (Qfloor (t / inject_Z 60)))).
Proof.
  intros H0. unfold of_Z. cbn [rem].
  change (Qzero (inject_Z 60)) with false. cbn iota.
  unfold Qtrunc.
  assert (H : Qle_bool 0 (t / inject_Z 60) = true).
  { apply Qle_bool_iff. unfold Qdiv.
    change (/ inject_Z 60)%Q with (1 # 60)%Q. lra. }
  now rewrite H.
Qed.

Lemma toFixed_seconds (x : Q) :
  (0 <= x)%Q -> (x < 60)%Q ->
  toFixed 2 (Fin (Qred x))
  = fixed2 (Qfloor (x * inject_Z 100 + (1 # 2))).
Proof.
  intros H0 H1. unfold toFixed.
  assert (Hneg : Qneg (Qred x) = false).
  { unfold Qneg. apply negb_false_iff, Qle_bool_iff.
    now rewrite Qred_correct. }
  rewrite Hneg.
  assert (Hbig : Qle_bool (inject_Z (10 ^ 21)) (Qred x) = false).
  { destruct (Qle_bool (inject_Z (10 ^ 21)) (Qred x)) eqn:E; [|reflexivity].
    apply Qle_bool_iff in E. rewrite Qred_correct in E.
    assert (60 <= inject_Z (10 ^ 21))%Q by (apply Qle_bool_iff; reflexivity).
    lra. }
  rewrite Hbig. cbn [List.app].
  change (10 ^ Z.of_nat 2)%Z with 100%Z.
  assert (Hfl : Qfloor (Qred x * inject_Z 100 + (1 # 2))
                = Qfloor (x * inject_Z 100 + (1 # 2)))
    by now rewrite Qred_correct.
  rewrite Hfl. reflexivity.
Qed.

Lemma serializeLine_shape (e : LyricLine) (t : Q) :
  time e = Fin t -> (0 <= t)%Q -> (t < inject_Z (60 * 10 ^ 21))%Q ->
  let M := Qfloor (t / inject_Z 60) in
  let n := Qfloor ((t - inject_Z 60 * inject_Z M) * inject_Z 100 + (1 # 2)) in
  serializeLine e
  = (digits M ++ 58%N :: seconds_field n) ++ 124%N :: text e.
Proof.
  intros Ht H0 H1 M n. unfold serializeLine. rewrite Ht.
  rewrite (toString_minutes t H0 H1), (rem_seconds t H0).
  destruct (minutes_and_hundredths t H0) as (_ & _ & Hx0 & Hx1 & _).
  rewrite (toFixed_seconds _ Hx0 Hx1).
  fold M. fold n. unfold seconds_field. now rewrite <- app_assoc.
Qed.

(** One serialized line is not blank, holds no line feed, and parses,
    at any position, to the entry it came from with its time read back
    from the printed fields: in the exact arithmetic of the model, the
    time rounded to hundredths. *)
Lemma serializeLine_entry (e : LyricLine) (index : nat) :
  serializable e ->
  free_of 10 (serializeLine e)
  /\ blank (serializeLine e) = false
  /\ freeform_entry index (serializeLine e) = rounded e.
Proof.
  intros [[t [Ht [H0 H1']]] [Hpipe [Hlf Htrim]]].
  assert (H1 : (t < inject_Z (60 * 10 ^ 21))%Q)
    by (eapply Qlt_trans; [exact H1' | reflexivity]).
  rewrite (serializeLine_shape e t Ht H0 H1). cbv zeta.
  destruct (minutes_and_hundredths t H0) as (HM & Hn & _ & _ & Harith).
  cbv zeta in Harith.
  set (M := Qfloor (t / inject_Z 60)) in *.
  set (n := Qfloor ((t - inject_Z 60 * inject_Z M) * inject_Z 100 + (1 # 2)))
    in *.
  destruct (digits_spec M HM) as (Hne & Hall & _ & _).
  destruct (seconds_field_spec n Hn)
    as (F10 & F124 & F58 & (d & r' & Hrev & Hd) & Hparse).
  assert (D10 : free_of 10 (digits M))
    by (apply digits_free_of; [intros c Hc; apply (digit_facts c Hc) | exact Hall]).
  assert (D124 : free_of 124 (digits M))
    by (apply digits_free_of; [intros c Hc; apply (digit_facts c Hc) | exact Hall]).
  assert (D58 : free_of 58 (digits M))
    by (apply digits_free_of; [intros c Hc; apply (digit_facts c Hc) | exact Hall]).
  destruct (digits M) as [|c r] eqn:EM; [congruence|].
  pose proof (Forall_inv Hall) as Hc. cbn beta in Hc.
  destruct (digit_facts c Hc) as (Hcws & _).
  destruct (digit_facts d Hd) as (Hdws & _).
  set (expr := (c :: r) ++ 58%N :: seconds_field n).
  assert (E124 : free_of 124 expr).
  { apply free_of_app. split; [exact D124|].
    apply free_of_cons. split; [reflexivity | exact F124]. }
  split; [|split].
  - apply free_of_app. split.
    + apply free_of_app. split; [exact D10|].
      apply free_of_cons. split; [reflexivity | exact F10].
    + apply free_of_cons. split; [reflexivity | exact Hlf].
  - unfold blank, expr. cbn [List.app forallb]. now rewrite Hcws.
  - unfold freeform_entry.
    rewrite (split_app_sep 124 expr (text e) E124), (split_free 124 _ Hpipe).
    rewrite Htrim.
    assert (Hexpr : trim expr = expr).
    { apply (trim_id expr c d (r ++ 58%N :: seconds_field n)
               (r' ++ 58%N :: rev (c :: r))).
      - reflexivity.
      - unfold expr. rewrite rev_app_distr.
        change (rev (58%N :: seconds_field n))
          with (rev (seconds_field n) ++ [58%N]).
        rewrite Hrev. cbn [List.app]. now rewrite <- app_assoc.
      - exact Hcws.
      - exact Hdws. }
    rewrite Hexpr. unfold freeform_time.
    assert (Hinc : includes 58 expr = true).
    { unfold includes, expr. rewrite existsb_app. cbn [existsb].
      now rewrite N.eqb_refl, orb_true_r. }
    rewrite Hinc. unfold expr.
    rewrite (split_app_sep 58 (c :: r) _ D58), (split_free 58 _ F58).
    rewrite <- EM, (parseInt_digits M HM), Hparse.
    unfold rounded. rewrite Ht. f_equal.
    unfold of_Z. cbn [mul add]. f_equal.
    unfold round_hundredths. apply Qred_complete.
    rewrite !Qred_correct. exact Harith.
Qed.

Lemma serialized_lines_retained (l : list LyricLine) :
  Forall serializable l ->
  retained (editBuffer (Some l)) = map serializeLine l.
Proof.
  intros Hall. unfold retained, editBuffer.
  destruct l as [|e l']; [reflexivity|].
  rewrite split_join.
  - apply forallb_filter_id. apply forallb_forall. intros line Hin.
    apply in_map_iff in Hin. destruct Hin as [e' [<- He']].
    rewrite Forall_forall in Hall.
    destruct (serializeLine_entry e' 0 (Hall e' He')) as (_ & Hb & _).
    now rewrite Hb.
  - apply Forall_forall. intros line Hin.
    apply in_map_iff in Hin. destruct Hin as [e' [<- He']].
    rewrite Forall_forall in Hall.
    now destruct (serializeLine_entry e' 0 (Hall e' He')) as (Hfree & _).
  - discriminate.
Qed.

Lemma serialized_lines_entries (l : list LyricLine) :
  Forall serializable l ->
  forall k,
    map_from (fun line index => freeform_entry index line)
      (map serializeLine l) k
    = map rounded l.
Proof.
  induction 1 as [|e l' He Hl IH]; intros k; [reflexivity|].
  cbn [map map_from]. rewrite IH.
  now destruct (serializeLine_entry e k He) as (_ & _ & ->).
Qed.

Lemma editable_serializable (e : LyricLine) :
  editable e -> serializable e.
Proof.
  intros [[t [Ht [H0 H1]]] Htext]. split; [|exact Htext].
  exists t. split; [exact Ht|]. split; [exact H0|].
  eapply Qlt_trans; [exact H1|]. reflexivity.
Qed.

Lemma parse_serialized (l : list LyricLine) :
  Forall serializable l ->
  parseManual (editBuffer (Some l)) = map rounded l.
Proof.
  intros Hall.
  rewrite parseManual_entries, (serialized_lines_retained l Hall).
  apply serialized_lines_entries, Hall.
Qed.

(** In the exact arithmetic of the model the fields printed for a time
    read back as the time rounded to hundredths. *)
Lemma reread_time_rounded (t : Q) :
  (0 <= t)%Q -> reread_time t = Fin (round_hundredths t).
Proof.
  intros H0. unfold reread_time, hundredths_of, minutes_of.
  destruct (minutes_and_hundredths t H0) as (_ & Hn & _ & _ & Harith).
  cbv zeta in Hn, Harith.
  destruct (seconds_field_spec _ Hn) as (_ & _ & _ & _ & ->).
  unfold of_Z. cbn [mul add]. f_equal.
  unfold round_hundredths. apply Qred_complete.
  rewrite !Qred_correct. exact Harith.
Qed.

Lemma reread_rounded (e : LyricLine) :
  serializable e -> reread e = rounded e.
Proof.
  intros [[t [Ht [H0 _]]] _]. unfold reread, rounded.
  now rewrite Ht, (reread_time_rounded t H0).
Qed.

Lemma map_reread_rounded (l : list LyricLine) :
  Forall serializable l -> map reread l = map rounded l.
Proof.
  induction 1 as [|e r He Hr IH]; [reflexivity|].
  cbn [map]. now rewrite (reread_rounded e He), IH.
Qed.

Lemma Qfloor_half_up (n : Z) (q : Q) :
  (q == inject_Z n)%Q -> Qfloor (q + (1 # 2)) = n.
Proof.
  intros H. apply Qfloor_unique.
  - rewrite H. lra.
  - rewrite H, inject_Z_plus. change (inject_Z 1) with 1%Q. lra.
Qed.

Lemma Qred_inject_Z (z : Z) : Qred (inject_Z z) = inject_Z z.
Proof.
  unfold Qred, inject_Z.
  pose proof (Z.ggcd_gcd z 1) as Hg.
  pose proof (Z.ggcd_correct_divisors z 1) as Hd.
  destruct (Z.ggcd z 1) as [g [aa bb]]. cbn [fst snd] in *.
  rewrite Z.gcd_1_r in Hg. subst g. destruct Hd as [Ha Hb].
  assert (Haa : aa = z) by lia. assert (Hbb : bb = 1%Z) by lia.
  now rewrite Haa, Hbb.
Qed.

(** A whole number of seconds rounds to itself. *)
Lemma round_hundredths_seconds (t : Q) (k : Z) :
  (t == inject_Z k)%Q -> round_hundredths t = inject_Z k.
Proof.
  intros Hk. unfold round_hundredths.
  rewrite (Qfloor_half_up (100 * k) (t * 100)).
  - rewrite <- (Qred_inject_Z k). apply Qred_complete.
    rewrite (Qmake_Qdiv _ 100), inject_Z_mult.
    change (inject_Z (Z.pos 100)) with 100%Q. change (inject_Z 100) with 100%Q.
    unfold Qdiv. change (/ 100)%Q with (1 # 100)%Q. lra.
  - rewrite Hk, inject_Z_mult. change (inject_Z 100) with 100%Q. lra.
Qed.

(** The seconds field is the seconds [t mod 60] to two decimals. *)
Lemma hundredths_of_close (t : Q) :
  (- (1 # 200)
   <= (hundredths_of t # 100) - (t - inject_Z 60 * inject_Z (minutes_of t)))%Q
  /\ ((hundredths_of t # 100) - (t - inject_Z 60 * inject_Z (minutes_of t))
      <= 1 # 200)%Q.
Proof.
  unfold hundredths_of.
  set (x := (t - inject_Z 60 * inject_Z (minutes_of t))%Q).
  pose proof (Qfloor_le (x * inject_Z 100 + (1 # 2))) as Hlo.
  pose proof (Qlt_floor (x * inject_Z 100 + (1 # 2))) as Hhi.
  rewrite inject_Z_plus in Hhi. change (inject_Z 1) with 1%Q in Hhi.
  change (inject_Z 100) with 100%Q in *.
  rewrite (Qmake_Qdiv _ 100). change (inject_Z (Z.pos 100)) with 100%Q.
  unfold Qdiv. change (/ 100)%Q with (1 # 100)%Q. split; lra.
Qed.

(** C4 (amended).  For a sequence of editable entries (a finite time
    from zero to below [2^53] seconds; a text without [|], without a
    line feed and without whitespace at either end), parsing the
    serialized edit buffer gives a sequence of the same length with the
    same texts.  The line of an entry prints the minutes
    [floor (time / 60)] and, as its seconds field, the seconds
    [time mod 60] to two decimals (a tie rounding up, so within 0.005 s
    of them); the time that comes back is the one the parser computes
    from these two fields, minutes times 60 plus the seconds field.  A
    time that is a whole number of seconds comes back as it was. *)
Theorem edit_round_trip (l : list LyricLine) :
  Forall editable l ->
  parseManual (editBuffer (Some l)) = map reread l
  /\ length (parseManual (editBuffer (Some l))) = length l
  /\ (forall i e,
         nth_error l i = Some e ->
         exists e' t,
           nth_error (parseManual (editBuffer (Some l))) i = Some e'
           /\ text e' = text e
           /\ time e = Fin t
           /\ serializeLine e
              = (digits (minutes_of t)
                 ++ 58%N :: seconds_field (hundredths_of t))
                ++ 124%N :: text e
           /\ time e'
              = add (mul (of_Z (minutes_of t)) (of_Z 60))
                    (parseFloat (seconds_field (hundredths_of t)))
           /\ (0 <= hundredths_of t <= 6000)%Z
           /\ (- (1 # 200)
               <= (hundredths_of t # 100)
                  - (t - inject_Z 60 * inject_Z (minutes_of t)))%Q
           /\ ((hundredths_of t # 100)
               - (t - inject_Z 60 * inject_Z (minutes_of t)) <= 1 # 200)%Q
           /\ (forall k : Z, (t == inject_Z k)%Q -> time e' = of_Z k)).
Proof.
  intros Hall.
  pose proof (Forall_impl serializable editable_serializable Hall) as Hser.
  rewrite (parse_serialized l Hser), <- (map_reread_rounded l Hser).
  split; [reflexivity|]. split; [apply length_map|].
  intros i e Hi.
  rewrite Forall_forall in Hser.
  destruct (Hser e (nth_error_In _ _ Hi)) as [[t [Ht [H0 H1]]] _].
  assert (H1' : (t < inject_Z (60 * 10 ^ 21))%Q)
    by (eapply Qlt_trans; [exact H1 | reflexivity]).
  exists (reread e), t. rewrite nth_error_map, Hi. cbn [option_map].
  split; [reflexivity|]. split; [reflexivity|]. split; [exact Ht|].
  split; [exact (serializeLine_shape e t Ht H0 H1')|].
  split; [unfold reread; now rewrite Ht|].
  split; [exact (proj1 (proj2 (minutes_and_hundredths t H0)))|].
  split; [exact (proj1 (hundredths_of_close t))|].
  split; [exact (proj2 (hundredths_of_close t))|].
  intros k Hk. unfold reread. rewrite Ht. cbn [time].
  rewrite (reread_time_rounded t H0).
  now rewrite (round_hundredths_seconds t k Hk).
Qed.

Lemma edit_round_trip_witness :
  Forall editable two_exact
  /\ editBuffer (Some two_exact)
     = lit "0:12.50|one" ++ 10%N :: lit "1:23.00|two"
  /\ parseManual (editBuffer (Some two_exact)) = two_exact
  /\ exists e', nth_error (parseManual (editBuffer (Some two_exact))) 1
                = Some e'
                /\ time e' = of_Z 83.
Proof.
  assert (H : Forall editable two_exact).
  { constructor; [|constructor; [|constructor]].
    - split; [|now repeat split]. exists (25 # 2).
      split; [reflexivity|]. split; [discriminate | reflexivity].
    - split; [|now repeat split]. exists (inject_Z 83).
      split; [reflexivity|]. split; [discriminate | reflexivity]. }
  split; [exact H|]. split; [reflexivity|].
  split; [rewrite (proj1 (edit_round_trip _ H)); reflexivity|].
  destruct (proj2 (proj2 (edit_round_trip _ H)) 1%nat (line_at 83 "two")
              eq_refl)
    as (e' & t & Hnth & _ & Ht & _ & _ & _ & _ & _ & Hwhole).
  exists e'. split; [exact Hnth|].
  apply Hwhole. injection Ht as <-. reflexivity.
Defined.

(** A text with a pipe loses its time and swallows the time field; a
    negative time, a text with a line feed or with outer whitespace, and
    a time of [60 * 10^21] seconds or more do not survive either. *)
Lemma edit_round_trip_counterexample :
  parseManual (editBuffer (Some [line_at 5 "a|b"]))
  = [line_at 0 "0:05.00|a|b"]
  /\ parseManual (editBuffer (Some [line_at (-1) "a"])) = [line_at (-61) "a"]
  /\ parseManual (editBuffer (Some [line_at 5 " a"])) = [line_at 5 "a"]
  /\ parseManual
       (editBuffer (Some [ {| time := of_Z 5; text := [97; 10; 98]%N |} ]))
     = [line_at 5 "a"; line_at 3 "b"]
  /\ parseManual (editBuffer (Some [line_at (60 * 10 ^ 21) "a"]))
     = [line_at 60 "a"].
Proof. repeat split; vm_compute; reflexivity. Qed.

(** * Further properties *)

(** ** More on the active line *)

Lemma ge_trans (x y z : number) :
  ge x y = true -> ge y z = true -> ge x z = true.
Proof.
  destruct x as [| [|] | x], y as [| [|] | y], z as [| [|] | z];
    cbn [ge negb orb]; try congruence.
  rewrite !Qle_bool_iff. intros H1 H2. eapply Qle_trans; eassumption.
Qed.

Lemma ge_not_lt (x y : number) : ge x y = true -> lt x y = false.
Proof.
  destruct x as [| [|] | x], y as [| [|] | y];
    cbn [ge lt negb orb andb]; try congruence.
  intros H. now rewrite H.
Qed.

(** Two numbers that both compare with a third compare with each
    other. *)
Lemma lt_or_ge (t a b : number) :
  ge t a = true -> ge b a = true -> lt t b = true \/ ge t b = true.
Proof.
  destruct t as [| [|] | t], a as [| [|] | a], b as [| [|] | b];
    cbn [ge lt negb orb andb]; try congruence;
    try (now left); try (now right).
  all: intros _ _; destruct (Qle_bool b t); [now right | now left].
Qed.

Lemma time_le_trans (a b c : LyricLine) :
  time_le a b -> time_le b c -> time_le a c.
Proof. unfold time_le. intros H1 H2. eapply ge_trans; eassumption. Qed.

Lemma ascending_tail (x : LyricLine) (l : list LyricLine) :
  ascending (x :: l) -> ascending l.
Proof. intros H. now inversion H. Qed.

Lemma ascending_later (l : list LyricLine) :
  ascending l ->
  forall i j a b,
    (i < j)%nat -> nth_error l i = Some a -> nth_error l j = Some b ->
    time_le a b.
Proof.
  intros Hasc.
  assert (Hstrong : StronglySorted time_le l).
  { apply Sorted_StronglySorted; [|exact Hasc].
    intros a b c. apply time_le_trans. }
  clear Hasc. induction Hstrong as [|x l Hl IH Hall]; intros i j a b Hij Hi Hj.
  - now destruct i.
  - destruct j as [|j]; [lia|]. cbn in Hj. destruct i as [|i].
    + cbn in Hi. injection Hi as <-.
      rewrite Forall_forall in Hall. apply Hall.
      eapply nth_error_In; eassumption.
    + cbn in Hi. apply (IH i j); [lia | assumption | assumption].
Qed.

Lemma activeIndex_found (lyrics : list LyricLine) (t : number) (i : nat) :
  activeIndex lyrics t = Z.of_nat i
  <-> in_window lyrics t i
      /\ forall j, (j < i)%nat -> ~ in_window lyrics t j.
Proof.
  unfold activeIndex, findIndex.
  rewrite (findIndex_from_found _ lyrics 0 i). cbn [Nat.add]. split.
  - intros [[x [Hi Hx]] Hlt]. split.
    + now apply (is_active_in_window lyrics t x i Hi).
    + intros j Hj Hw. pose proof Hw as [y [Hy _]].
      apply (is_active_in_window lyrics t y j Hy) in Hw.
      rewrite (Hlt j y Hj Hy) in Hw. discriminate.
  - intros [Hw Hlt]. split.
    + pose proof Hw as [x [Hi _]]. exists x. split; [exact Hi|].
      now apply (is_active_in_window lyrics t x i Hi).
    + intros j y Hj Hy.
      destruct (is_active lyrics t y j) eqn:E; [|reflexivity].
      apply (is_active_in_window lyrics t y j Hy) in E.
      now apply Hlt in E.
Qed.

Lemma started_up_to_active (lyrics : list LyricLine) (t : number) (i : nat) :
  started_up_to lyrics t i -> activeIndex lyrics t = Z.of_nat i.
Proof.
  intros (Hlen & Hdone & Hnot). apply activeIndex_found. split.
  - destruct (nth_error lyrics i) as [e|] eqn:Ei;
      [|apply nth_error_None in Ei; lia].
    exists e. split; [exact Ei|]. split; [apply (Hdone i e); [lia | exact Ei]|].
    destruct (nth_error lyrics (S i)) as [next|] eqn:En.
    + right. exists next. split; [reflexivity|]. apply (Hnot (S i) next); [lia | exact En].
    + left. apply nth_error_None in En. lia.
  - intros j Hj (e & Hej & _ & [Hlast | (next & Hn & Hlt)]); [lia|].
    rewrite (ge_not_lt _ _ (Hdone (S j) next ltac:(lia) Hn)) in Hlt.
    discriminate.
Qed.

Lemma active_started_up_to (lyrics : list LyricLine) (t : number) (i : nat) :
  ascending lyrics ->
  activeIndex lyrics t = Z.of_nat i -> started_up_to lyrics t i.
Proof.
  intros Hasc H. apply activeIndex_found in H.
  destruct H as [(e & Hi & Hge & Hnext) _].
  assert (Hlen : (i < length lyrics)%nat)
    by (apply nth_error_Some; congruence).
  split; [exact Hlen|]. split.
  - intros j e' Hj He'.
    destruct (Nat.eq_dec j i) as [->|Hne]; [congruence|].
    eapply ge_trans; [exact Hge|].
    apply (ascending_later lyrics Hasc j i e' e); [lia | assumption | assumption].
  - intros j e' Hj He'.
    destruct Hnext as [Hlast | (next & Hn & Hlt)].
    + assert (j < length lyrics)%nat by (apply nth_error_Some; congruence).
      lia.
    + destruct (Nat.eq_dec j (S i)) as [->|Hne]; [congruence|].
      eapply lt_ge_trans; [exact Hlt|].
      apply (ascending_later lyrics Hasc (S i) j next e');
        [lia | assumption | assumption].
Qed.

(** X1.  In a sequence in time order the active line is the latest line
    that has started: index [i] is active exactly when the entries up to
    [i] have started and the later ones have not. *)
Theorem active_line_latest_started (lyrics : list LyricLine)
  (currentTime : number) (i : nat) :
  ascending lyrics ->
  activeIndex lyrics currentTime = Z.of_nat i
  <-> started_up_to lyrics currentTime i.
Proof.
  intros Hasc. split.
  - now apply active_started_up_to.
  - apply started_up_to_active.
Qed.

Lemma active_line_latest_started_witness :
  ascending three_lines
  /\ (activeIndex three_lines (of_Z 4) = 1%Z
      <-> started_up_to three_lines (of_Z 4) 1).
Proof.
  assert (H : ascending three_lines) by (repeat constructor).
  split; [exact H|].
  exact (active_line_latest_started three_lines (of_Z 4) 1 H).
Defined.

Lemma started_somewhere (lyrics : list LyricLine) (t : number) :
  ascending lyrics ->
  forall first,
    nth_error lyrics 0 = Some first -> ge t (time first) = true ->
    exists i, started_up_to lyrics t i.
Proof.
  induction lyrics as [|a l IH]; intros Hasc first Hfirst Hge;
    [discriminate|].
  cbn in Hfirst. injection Hfirst as <-.
  destruct l as [|b r].
  - exists 0%nat. split; [cbn; lia|]. split.
    + intros [|j] e Hj He; [|lia]. cbn in He. now injection He as <-.
    + intros [|j] e Hj He; [lia|]. now destruct j.
  - assert (Hab : time_le a b).
    { inversion Hasc as [|? ? _ Hhd]; subst. now inversion Hhd. }
    destruct (lt_or_ge t (time a) (time b) Hge Hab) as [Hlt | Hgeb].
    + exists 0%nat. split; [cbn; lia|]. split.
      * intros [|j] e Hj He; [|lia]. cbn in He. now injection He as <-.
      * intros [|j] e Hj He; [lia|]. cbn in He.
        destruct j as [|j].
        -- cbn in He. now injection He as <-.
        -- eapply lt_ge_trans; [exact Hlt|].
           apply (ascending_later (b :: r) (ascending_tail a _ Hasc)
                    0%nat (S j) b e); [lia | reflexivity | exact He].
    + destruct (IH (ascending_tail a _ Hasc) b eq_refl Hgeb)
        as (i & Hlen & Hdone & Hnot).
      exists (S i). split; [cbn in *; lia|]. split.
      * intros [|j] e Hj He.
        -- cbn in He. now injection He as <-.
        -- apply (Hdone j e); [lia | exact He].
      * intros [|j] e Hj He; [lia|]. apply (Hnot j e); [lia | exact He].
Qed.

(** X2.  In a sequence in time order, once the first line has started
    some line is active: the result is an index of the sequence, never
    none. *)
Theorem active_line_exists (lyrics : list LyricLine) (currentTime : number)
  (first : LyricLine) :
  ascending lyrics ->
  nth_error lyrics 0 = Some first ->
  ge currentTime (time first) = true ->
  exists i, (i < length lyrics)%nat
            /\ activeIndex lyrics currentTime = Z.of_nat i.
Proof.
  intros Hasc Hfirst Hge.
  destruct (started_somewhere lyrics currentTime Hasc first Hfirst Hge)
    as [i Hi].
  exists i. split; [apply Hi | now apply started_up_to_active].
Qed.

Lemma active_line_exists_witness :
  ascending three_lines
  /\ exists i, (i < length three_lines)%nat
               /\ activeIndex three_lines (of_Z 1000) = Z.of_nat i.
Proof.
  assert (H : ascending three_lines) by (repeat constructor).
  split; [exact H|].
  exact (active_line_exists three_lines (of_Z 1000) (line_at 0 "a")
           H eq_refl eq_refl).
Defined.

(** X3.  An entry whose time is [NaN] is never the active line, and
    neither is the entry before it. *)
Theorem nan_entry_never_active (lyrics : list LyricLine)
  (currentTime : number) (i : nat) (e : LyricLine) :
  nth_error lyrics i = Some e -> time e = NaN ->
  activeIndex lyrics currentTime <> Z.of_nat i
  /\ forall j, i = S j -> activeIndex lyrics currentTime <> Z.of_nat j.
Proof.
  intros Hi Hnan. split.
  - intros H. apply activeIndex_found in H.
    destruct H as [(e' & He' & Hge & _) _].
    assert (e' = e) by congruence. subst e'.
    rewrite Hnan in Hge. now destruct currentTime.
  - intros j -> H. apply activeIndex_found in H.
    destruct H as [(e' & He' & _ & [Hlast | (next & Hn & Hlt)]) _].
    + assert (S j < length lyrics)%nat
        by (apply nth_error_Some; congruence).
      lia.
    + assert (next = e) by congruence. subst next.
      rewrite Hnan in Hlt. now destruct currentTime.
Qed.

Lemma nan_entry_never_active_witness :
  nth_error (parseManual (lit "0|a" ++ [10%N] ++ lit "soon|b")) 1
  = Some {| time := NaN; text := lit "b" |}
  /\ activeIndex (parseManual (lit "0|a" ++ [10%N] ++ lit "soon|b")) (of_Z 5)
     <> 0%Z.
Proof.
  split; [reflexivity|].
  exact (proj2 (nan_entry_never_active
                  (parseManual (lit "0|a" ++ [10%N] ++ lit "soon|b"))
                  (of_Z 5) 1 {| time := NaN; text := lit "b" |}
                  eq_refl eq_refl) 0%nat eq_refl).
Defined.

(** ** More on trimming *)

Lemma trimStart_head (s : jsstring) :
  trimStart s = []
  \/ exists c r, trimStart s = c :: r /\ is_trimmed_char c = false.
Proof.
  induction s as [|c r IH]; [now left|].
  cbn [trimStart]. destruct (is_trimmed_char c) eqn:E; [exact IH|].
  right. now exists c, r.
Qed.

Lemma trimStart_idempotent (s : jsstring) :
  trimStart (trimStart s) = trimStart s.
Proof.
  destruct (trimStart_head s) as [-> | (c & r & -> & Hc)]; [reflexivity|].
  now apply trimStart_id.
Qed.

(** [trimEnd] only removes a whitespace-only end. *)
Lemma trimEnd_prefix (s : jsstring) :
  exists ws, s = trimEnd s ++ ws /\ blank ws = true.
Proof.
  unfold trimEnd. destruct (trimStart_suffix (rev s)) as [ws [Hs Hws]].
  exists (rev ws). split; [|now rewrite blank_rev].
  rewrite <- rev_app_distr, <- Hs. now rewrite rev_involutive.
Qed.

Lemma trim_idempotent (s : jsstring) : trim (trim s) = trim s.
Proof.
  unfold trim.
  assert (Hstart : forall v,
             trimStart v = v -> trimStart (trimEnd v) = trimEnd v).
  { intros v Hv. destruct (trimEnd_prefix v) as [ws [Hpre _]].
    destruct (trimEnd v) as [|c r] eqn:E; [reflexivity|].
    apply trimStart_id.
    destruct (trimStart_head v) as [Hnil | (c' & r' & Hc' & Hws)].
    - rewrite Hv in Hnil. rewrite Hnil in Hpre. discriminate.
    - rewrite Hv in Hc'. rewrite Hc' in Hpre. cbn in Hpre.
      now injection Hpre as -> _. }
  rewrite (Hstart _ (trimStart_idempotent s)).
  unfold trimEnd at 1 2. rewrite rev_involutive.
  now rewrite trimStart_idempotent.
Qed.

Lemma trim_free_of (c : char) (s : jsstring) :
  free_of c s -> free_of c (trim s).
Proof.
  intros H. unfold trim.
  destruct (trimStart_suffix s) as [ws [Hs _]].
  destruct (trimEnd_prefix (trimStart s)) as [ws' [Hs' _]].
  rewrite Hs, Hs' in H.
  apply free_of_app in H. destruct H as [_ H].
  apply free_of_app in H. now destruct H.
Qed.

Lemma take_dot_free_of (c : char) (s : jsstring) :
  free_of c s -> free_of c (take_dot s).
Proof.
  induction s as [|d r IH]; [easy|].
  rewrite free_of_cons. intros [Hd Hr]. cbn [take_dot].
  destruct (is_line_terminator d); [reflexivity|].
  apply free_of_cons. split; [exact Hd | now apply IH].
Qed.

Lemma split_lines_free (sep : char) (s : jsstring) :
  Forall (free_of sep) (split sep s).
Proof.
  induction s as [|c r IH]; [now repeat constructor|].
  cbn [split]. destruct (N.eqb c sep) eqn:E.
  - constructor; [reflexivity | exact IH].
  - destruct (split sep r) as [|h t].
    + constructor; [|constructor]. apply free_of_cons. now split.
    + inversion IH; subst. constructor; [|assumption].
      apply free_of_cons. now split.
Qed.

(** ** Edit and Save, again *)

Lemma hundredths_times_100 (n : Z) : (Qred (n # 100) * 100 == inject_Z n)%Q.
Proof.
  rewrite Qred_correct, (Qmake_Qdiv n 100).
  change (inject_Z (Z.pos 100)) with 100%Q.
  unfold Qdiv. change (/ 100)%Q with (1 # 100)%Q. lra.
Qed.

Lemma round_hundredths_whole (q : Q) :
  whole_hundredths q -> round_hundredths q = q.
Proof.
  intros [n ->]. unfold round_hundredths.
  now rewrite (Qfloor_half_up n _ (hundredths_times_100 n)).
Qed.

Lemma round_hundredths_is_whole (t : Q) :
  whole_hundredths (round_hundredths t).
Proof. unfold round_hundredths. now eexists. Qed.

Lemma rounded_whole (e : LyricLine) (q : Q) :
  time e = Fin q -> whole_hundredths q -> rounded e = e.
Proof.
  intros Ht Hq. unfold rounded. rewrite Ht, (round_hundredths_whole q Hq).
  destruct e as [t w]. cbn in *. now subst t.
Qed.

Lemma digit_val_range (c : char) :
  is_digit c = true -> (0 <= digit_val c <= 9)%Z.
Proof.
  unfold is_digit, digit_val. rewrite andb_true_iff, !N.leb_le. lia.
Qed.

Lemma hundredths_range (n : Z) :
  (0 <= n < 604000)%Z ->
  (0 <= Qred (n # 100))%Q /\ (Qred (n # 100) < 6040)%Q.
Proof.
  intros Hn. rewrite Qred_correct, (Qmake_Qdiv n 100).
  change (inject_Z (Z.pos 100)) with 100%Q.
  assert (H0 : (0 <= inject_Z n)%Q)
    by (change 0%Q with (inject_Z 0); rewrite <- Zle_Qle; lia).
  assert (H1 : (inject_Z n < 604000)%Q)
    by (change 604000%Q with (inject_Z 604000); rewrite <- Zlt_Qlt; lia).
  unfold Qdiv. change (/ 100)%Q with (1 # 100)%Q. split; lra.
Qed.

Lemma lrc_time_whole (m1 m2 s1 s2 h1 h2 : char) :
  forallb is_digit [m1; m2; s1; s2; h1; h2] = true ->
  exists n, (0 <= n < 604000)%Z
            /\ lrc_time m1 m2 s1 s2 h1 h2 = Fin (Qred (n # 100)).
Proof.
  cbn [forallb]. rewrite !andb_true_iff.
  intros (H1 & H2 & H3 & H4 & H5 & H6 & _).
  apply digit_val_range in H1, H2, H3, H4, H5, H6.
  exists (6000 * two_digits m1 m2 + 100 * two_digits s1 s2 + two_digits h1 h2)%Z.
  split; [unfold two_digits; lia|].
  unfold lrc_time. f_equal. apply Qred_complete.
  rewrite (Qmake_Qdiv _ 100), !inject_Z_plus, !inject_Z_mult.
  change (inject_Z (Z.pos 100)) with 100%Q.
  change (inject_Z 6000) with 6000%Q. change (inject_Z 100) with 100%Q.
  unfold Qdiv. change (/ 100)%Q with (1 # 100)%Q. lra.
Qed.

Lemma lrc_entry_shaped (line : jsstring) (e : LyricLine) :
  free_of 10 line -> lrc_entry line = Some e -> lrc_shaped e.
Proof.
  intros Hfree He. pose proof (lrc_entry_yields line) as Hy.
  rewrite He in Hy.
  destruct Hy
    as (k & m1 & m2 & s1 & s2 & h1 & h2 & rest & (Hd & _ & Hskip) & _ & Ht & Hw).
  split; [|split].
  - rewrite Ht. now apply lrc_time_whole.
  - rewrite Hw. apply trim_free_of, take_dot_free_of.
    rewrite <- (firstn_skipn k line), Hskip in Hfree.
    apply free_of_app in Hfree. destruct Hfree as [_ Hfree].
    apply free_of_app in Hfree. now destruct Hfree.
  - rewrite Hw. apply trim_idempotent.
Qed.

Lemma parseLRCFile_shaped (content : jsstring) :
  Forall lrc_shaped (parseLRCFile content).
Proof.
  rewrite parseLRCFile_lines. apply Forall_forall. intros e He.
  apply (Permutation_in _ (sort_perm by_time _)) in He.
  apply in_flat_map in He. destruct He as [line [Hline He]].
  destruct (lrc_entry line) as [e'|] eqn:E; cbn in He; [|contradiction].
  destruct He as [<-|[]].
  apply (lrc_entry_shaped line e'); [|exact E].
  pose proof (split_lines_free 10 content) as Hall.
  rewrite Forall_forall in Hall. now apply Hall.
Qed.

(** X4.  Every time the LRC parser produces is finite, at least zero
    and below 6040 seconds, the largest tag being 99:99.99: the minutes
    and seconds fields are not checked against 59. *)
Theorem parseLRCFile_time_range (content : jsstring) (e : LyricLine) :
  In e (parseLRCFile content) ->
  exists q, time e = Fin q /\ (0 <= q)%Q /\ (q < 6040)%Q.
Proof.
  intros He. pose proof (parseLRCFile_shaped content) as H.
  rewrite Forall_forall in H.
  destruct (H e He) as [(n & Hn & Ht) _].
  exists (Qred (n # 100)). split; [exact Ht|].
  now apply hundredths_range.
Qed.

Lemma parseLRCFile_time_range_witness :
  In {| time := Fin (12079 # 2); text := lit "z" |}
     (parseLRCFile (lit "[99:99.50]z"))
  /\ exists q, Fin (12079 # 2) = Fin q /\ (0 <= q)%Q /\ (q < 6040)%Q.
Proof.
  assert (H : In {| time := Fin (12079 # 2); text := lit "z" |}
                (parseLRCFile (lit "[99:99.50]z")))
    by (left; reflexivity).
  split; [exact H|].
  exact (parseLRCFile_time_range (lit "[99:99.50]z") _ H).
Defined.

Lemma lrc_shaped_editable (e : LyricLine) :
  lrc_shaped e -> free_of 124 (text e) -> editable e.
Proof.
  intros [(n & Hn & Ht) [Hlf Htrim]] Hpipe.
  split; [|now repeat split].
  exists (Qred (n # 100)). split; [exact Ht|].
  destruct (hundredths_range n Hn) as [H0 H1]. split; [exact H0|].
  assert (H2 : (6040 <= inject_Z (2 ^ 53))%Q)
    by (apply Qle_bool_iff; reflexivity).
  lra.
Qed.

Lemma map_rounded_whole (l : list LyricLine) :
  Forall (fun e => exists q, time e = Fin q /\ whole_hundredths q) l ->
  map rounded l = l.
Proof.
  induction 1 as [|e r (q & Ht & Hq) Hr IH]; [reflexivity|].
  cbn [map]. now rewrite (rounded_whole e q Ht Hq), IH.
Qed.

(** X5.  Lyrics read from an LRC file pass through the editor with
    their texts and their order: when none of the texts holds a [|],
    every entry is editable, and serializing the entries into the edit
    buffer and parsing the buffer gives as many entries, with the same
    texts in the same order, each time read back from the fields printed
    for it. *)
Theorem lrc_texts_survive_edit (content : jsstring) :
  Forall (fun e => free_of 124 (text e)) (parseLRCFile content) ->
  Forall editable (parseLRCFile content)
  /\ parseManual (editBuffer (Some (parseLRCFile content)))
     = map reread (parseLRCFile content)
  /\ length (parseManual (editBuffer (Some (parseLRCFile content))))
     = length (parseLRCFile content)
  /\ map text (parseManual (editBuffer (Some (parseLRCFile content))))
     = map text (parseLRCFile content).
Proof.
  intros Hpipe. pose proof (parseLRCFile_shaped content) as Hshape.
  assert (Hall : Forall editable (parseLRCFile content)).
  { rewrite Forall_forall in Hpipe, Hshape. apply Forall_forall.
    intros e He.
    apply lrc_shaped_editable; [now apply Hshape | now apply Hpipe]. }
  pose proof (Forall_impl serializable editable_serializable Hall) as Hser.
  split; [exact Hall|].
  rewrite (parse_serialized _ Hser), <- (map_reread_rounded _ Hser).
  split; [reflexivity|]. split; [apply length_map|].
  rewrite map_map. apply map_ext. reflexivity.
Qed.

Lemma lrc_texts_survive_edit_witness :
  Forall (fun e => free_of 124 (text e)) (parseLRCFile lrc_with_cr)
  /\ map text (parseManual (editBuffer (Some (parseLRCFile lrc_with_cr))))
     = [lit "a"; lit "c"].
Proof.
  assert (H : Forall (fun e => free_of 124 (text e))
                (parseLRCFile lrc_with_cr))
    by (repeat constructor).
  split; [exact H|].
  rewrite (proj2 (proj2 (proj2 (lrc_texts_survive_edit lrc_with_cr H)))).
  reflexivity.
Defined.

Lemma rounded_serializable (e : LyricLine) :
  editable e -> serializable (rounded e).
Proof.
  intros [[t [Ht [H0 H1]]] Htext]. split; [|exact Htext].
  exists (round_hundredths t). unfold rounded. rewrite Ht. cbn [time].
  split; [reflexivity|].
  destruct (round_hundredths_close t) as [Hlo Hhi].
  assert (Hbig : (inject_Z (2 ^ 53) + 1 <= inject_Z (2 ^ 53 + 1))%Q)
    by (apply Qle_bool_iff; reflexivity).
  split; [|lra].
  unfold round_hundredths. rewrite Qred_correct, (Qmake_Qdiv _ 100).
  change (inject_Z (Z.pos 100)) with 100%Q.
  assert (Hfl : (0 <= Qfloor (t * 100 + (1 # 2)))%Z).
  { rewrite <- (Qfloor_Z 0). apply Qfloor_resp_le.
    change (inject_Z 0) with 0%Q. lra. }
  rewrite Zle_Qle in Hfl. change (inject_Z 0) with 0%Q in Hfl.
  unfold Qdiv. change (/ 100)%Q with (1 # 100)%Q. lra.
Qed.

(** X6.  One pass through the editor settles the lyrics: for editable
    entries, what Edit and Save produce is reproduced exactly by any
    further Edit and Save. *)
Theorem edit_cycle_idempotent (l : list LyricLine) :
  Forall editable l ->
  parseManual
    (editBuffer (Some (parseManual (editBuffer (Some l)))))
  = parseManual (editBuffer (Some l)).
Proof.
  intros Hall.
  rewrite (parse_serialized l
             (Forall_impl serializable editable_serializable Hall)).
  rewrite parse_serialized.
  - apply map_rounded_whole. apply Forall_forall. intros e He.
    apply in_map_iff in He. destruct He as (e0 & <- & He0).
    rewrite Forall_forall in Hall.
    destruct (Hall e0 He0) as [[t [Ht _]] _].
    exists (round_hundredths t). unfold rounded. rewrite Ht. cbn [time].
    split; [reflexivity | apply round_hundredths_is_whole].
  - apply Forall_forall. intros e He.
    apply in_map_iff in He. destruct He as (e0 & <- & He0).
    rewrite Forall_forall in Hall. now apply rounded_serializable, Hall.
Qed.

Lemma edit_cycle_idempotent_witness :
  Forall editable two_editable
  /\ parseManual
       (editBuffer (Some (parseManual (editBuffer (Some two_editable)))))
     = parseManual (editBuffer (Some two_editable)).
Proof.
  assert (H : Forall editable two_editable).
  { constructor; [|constructor; [|constructor]].
    - split; [|now repeat split]. exists (12345 # 1000).
      split; [reflexivity|]. split; [discriminate | reflexivity].
    - split; [|now repeat split]. exists (inject_Z 83).
      split; [reflexivity|]. split; [discriminate | reflexivity]. }
  split; [exact H | exact (edit_cycle_idempotent two_editable H)].
Defined.

(** ** The clock of the player *)

Lemma clock_seconds_checked :
  forallb clock_seconds_ok (map Z.of_nat (seq 0 60)) = true.
Proof. vm_compute. reflexivity. Qed.

Lemma clock_seconds_spec (s : Z) :
  (0 <= s < 60)%Z ->
  length (clock_seconds s) = 2%nat
  /\ free_of 58 (clock_seconds s)
  /\ parseFloat (clock_seconds s) = of_Z s.
Proof.
  intros Hs. pose proof clock_seconds_checked as H.
  rewrite forallb_forall in H. specialize (H s).
  assert (Hin : In s (map Z.of_nat (seq 0 60))).
  { apply in_map_iff. exists (Z.to_nat s). split; [lia|].
    apply in_seq. lia. }
  specialize (H Hin). unfold clock_seconds_ok in H.
  rewrite !andb_true_iff, negb_true_iff, Nat.eqb_eq in H.
  destruct H as [[Hlen H58] Hparse].
  repeat split; [exact Hlen | exact H58 | now apply number_eqb_eq].
Qed.

Lemma toString_small (s : Z) :
  (0 <= s < 60)%Z -> toString (of_Z s) = digits s.
Proof.
  intros Hs. unfold of_Z. cbn [toString]. rewrite Qfloor_Z.
  unfold toString_integral.
  destruct (Z.ltb_spec s 0) as [Hneg|_]; [lia|].
  unfold toString_unsigned.
  destruct (digits_spec s ltac:(lia)) as (_ & _ & _ & Hlen).
  assert (H : (s < 10 ^ Z.of_nat 21)%Z)
    by (change (10 ^ Z.of_nat 21)%Z with (10 ^ 21)%Z; lia).
  specialize (Hlen 20%nat H).
  destruct (Nat.leb_spec (length (digits s)) 21) as [_|Hgt]; [reflexivity|lia].
Qed.

(** Whole minutes and whole remaining seconds of a time. *)
Lemma minutes_and_seconds (t : Q) :
  (0 <= t)%Q ->
  let M := Qfloor (t / inject_Z 60) in
  let s := Qfloor (t - inject_Z 60 * inject_Z M) in
  (0 <= s < 60)%Z /\ (M * 60 + s)%Z = Qfloor t.
Proof.
  intros Ht M s.
  destruct (minutes_and_hundredths t Ht) as (_ & _ & Hx0 & Hx1 & _).
  fold M in Hx0, Hx1.
  pose proof (Qfloor_le t) as Hlo. pose proof (Qlt_floor t) as Hhi.
  rewrite inject_Z_plus in Hhi. change (inject_Z 1) with 1%Q in Hhi.
  change (inject_Z 60) with 60%Q in *.
  assert (Hs : s = (Qfloor t - 60 * M)%Z).
  { apply Qfloor_unique.
    - rewrite inject_Z_sub, inject_Z_mult.
      change (inject_Z 60) with 60%Q. lra.
    - rewrite inject_Z_plus, inject_Z_sub, inject_Z_mult.
      change (inject_Z 60) with 60%Q. change (inject_Z 1) with 1%Q. lra. }
  assert (Hs0 : (0 <= s)%Z).
  { rewrite <- (Qfloor_Z 0). apply Qfloor_resp_le.
    change (inject_Z 0) with 0%Q. lra. }
  assert (Hs1 : (s < 60)%Z).
  { rewrite Zlt_Qlt. eapply Qle_lt_trans; [apply Qfloor_le|].
    change (inject_Z 60) with 60%Q. lra. }
  split; lia.
Qed.

Lemma formatTime_shape (t : Q) :
  (0 <= t)%Q -> (t < inject_Z (2 ^ 53))%Q ->
  let M := Qfloor (t / inject_Z 60) in
  let s := Qfloor (t - inject_Z 60 * inject_Z M) in
  AudioPlayer.formatTime (Fin t) = digits M ++ 58%N :: clock_seconds s.
Proof.
  intros H0 H1 M s. unfold AudioPlayer.formatTime. cbv zeta.
  assert (H1' : (t < inject_Z (60 * 10 ^ 21))%Q)
    by (eapply Qlt_trans; [exact H1 | reflexivity]).
  rewrite (toString_minutes t H0 H1'), (rem_seconds t H0).
  fold M. cbn [floor].
  assert (Hfl : Qfloor (Qred (t - inject_Z 60 * inject_Z M)) = s)
    by (unfold s; now rewrite Qred_correct).
  rewrite Hfl.
  destruct (minutes_and_seconds t H0) as [Hs _]. fold M in Hs. fold s in Hs.
  now rewrite (toString_small s Hs).
Qed.

(** X7.  For a time from zero to below [2^53] seconds the clock shows
    the whole minutes, a colon and the whole remaining seconds on
    exactly two digits; read as a time expression of the editor the
    display stands for the time rounded down to a whole second. *)
Theorem formatTime_whole_seconds (t : Q) :
  (0 <= t)%Q -> (t < inject_Z (2 ^ 53))%Q ->
  exists minutes seconds,
    AudioPlayer.formatTime (Fin t) = minutes ++ 58%N :: seconds
    /\ minutes = digits (Qfloor (t / inject_Z 60))
    /\ length seconds = 2%nat
    /\ freeform_time (AudioPlayer.formatTime (Fin t)) = of_Z (Qfloor t).
Proof.
  intros H0 H1.
  rewrite (formatTime_shape t H0 H1). cbv zeta.
  destruct (minutes_and_seconds t H0) as [Hs Hsum]. cbv zeta in Hs, Hsum.
  destruct (minutes_and_hundredths t H0) as (HM & _).
  set (M := Qfloor (t / inject_Z 60)) in *.
  set (s := Qfloor (t - inject_Z 60 * inject_Z M)) in *.
  destruct (clock_seconds_spec s Hs) as (Hlen & H58 & Hparse).
  exists (digits M), (clock_seconds s).
  split; [reflexivity|]. split; [reflexivity|]. split; [exact Hlen|].
  destruct (digits_spec M HM) as (_ & Hall & _ & _).
  assert (D58 : free_of 58 (digits M))
    by (apply digits_free_of; [intros c Hc; apply (digit_facts c Hc) | exact Hall]).
  unfold freeform_time.
  assert (Hinc : includes 58 (digits M ++ 58%N :: clock_seconds s) = true).
  { unfold includes. rewrite existsb_app. cbn [existsb].
    now rewrite N.eqb_refl, orb_true_r. }
  rewrite Hinc, (split_app_sep 58 _ _ D58), (split_free 58 _ H58).
  rewrite (parseInt_digits M HM), Hparse.
  unfold of_Z. cbn [mul add]. f_equal.
  rewrite <- Hsum, <- (Qred_inject_Z (M * 60 + s)). apply Qred_complete.
  rewrite Qred_correct, inject_Z_plus, inject_Z_mult. reflexivity.
Qed.

Lemma formatTime_whole_seconds_witness :
  AudioPlayer.formatTime (Fin (1255 # 10)) = lit "2:05"
  /\ exists minutes seconds,
       AudioPlayer.formatTime (Fin (1255 # 10)) = minutes ++ 58%N :: seconds
       /\ minutes = digits (Qfloor ((1255 # 10) / inject_Z 60))
       /\ length seconds = 2%nat
       /\ freeform_time (AudioPlayer.formatTime (Fin (1255 # 10)))
          = of_Z (Qfloor (1255 # 10)).
Proof.
  split; [reflexivity|].
  apply (formatTime_whole_seconds (1255 # 10)); [discriminate | reflexivity].
Defined.

(** ** Adding a song *)

Lemma is_extension_no_dot (ext : jsstring) :
  is_extension ext = true -> free_of 46 ext.
Proof.
  unfold is_extension. rewrite andb_true_iff. intros [_ H].
  unfold free_of, includes.
  induction ext as [|c r IH]; [reflexivity|].
  cbn [forallb existsb] in *. rewrite andb_true_iff in H.
  destruct H as [Hc Hr]. rewrite (IH Hr), orb_false_r.
  rewrite negb_true_iff, orb_false_iff in Hc. destruct Hc as [_ Hc].
  now rewrite N.eqb_sym.
Qed.

Lemma strip_extension_keeps (base ext : jsstring) :
  is_extension ext = true ->
  AudioPlayer.strip_extension (base ++ 46%N :: ext) = base.
Proof.
  intros Hext. pose proof (is_extension_no_dot ext Hext) as Hdot.
  induction base as [|c r IH]; cbn [List.app AudioPlayer.strip_extension].
  - change (truthy ext
            && forallb (fun d => negb (N.eqb d 47 || N.eqb d 46)) ext)
      with (is_extension ext) in *.
    rewrite N.eqb_refl, <- andb_assoc. cbn [andb].
    change (truthy ext
            && forallb (fun d => negb (N.eqb d 47 || N.eqb d 46)) ext)
      with (is_extension ext).
    now rewrite Hext.
  - rewrite IH.
    assert (H : forallb (fun d => negb (N.eqb d 47 || N.eqb d 46))
                  (r ++ 46%N :: ext) = false).
    { rewrite forallb_app. cbn [forallb]. rewrite N.eqb_refl.
      rewrite orb_true_r. cbn [negb andb]. apply andb_false_r. }
    rewrite H, andb_false_r. reflexivity.
Qed.

Lemma strip_extension_unchanged (s : jsstring) :
  (forall base ext, s = base ++ 46%N :: ext -> is_extension ext = false) ->
  AudioPlayer.strip_extension s = s.
Proof.
  induction s as [|c r IH]; intros H; [reflexivity|].
  cbn [AudioPlayer.strip_extension].
  destruct (N.eqb c 46 && truthy r
            && forallb (fun d => negb (N.eqb d 47 || N.eqb d 46)) r) eqn:E.
  - rewrite <- andb_assoc, andb_true_iff, N.eqb_eq in E.
    destruct E as [-> E]. specialize (H [] r eq_refl).
    unfold is_extension in H. congruence.
  - f_equal. apply IH. intros base ext ->.
    apply (H (c :: base) ext). reflexivity.
Qed.

(** X8.  The title of an uploaded song is the file name without its last
    extension: a final dot followed by one or more characters other than
    dots and slashes is cut off, and a name that does not end that way
    is kept whole. *)
Theorem strip_extension_title :
  (forall base ext,
      is_extension ext = true ->
      AudioPlayer.strip_extension (base ++ 46%N :: ext) = base)
  /\ (forall s,
         (forall base ext,
             s = base ++ 46%N :: ext -> is_extension ext = false) ->
         AudioPlayer.strip_extension s = s).
Proof. split; [exact strip_extension_keeps | exact strip_extension_unchanged]. Qed.

Lemma strip_extension_title_witness :
  is_extension (lit "mp3") = true
  /\ AudioPlayer.strip_extension (lit "my.song" ++ 46%N :: lit "mp3") = lit "my.song"
  /\ AudioPlayer.strip_extension (lit "track") = lit "track".
Proof.
  destruct strip_extension_title as [Hcut Hkeep].
  split; [reflexivity|]. split.
  - exact (Hcut (lit "my.song") (lit "mp3") eq_refl).
  - apply Hkeep. intros base ext H.
    assert (Hin : In 46%N (lit "track")) by (rewrite H; apply in_elt).
    cbn in Hin. repeat (destruct Hin as [Hin|Hin]; [discriminate|]).
    contradiction.
Defined.

(** X9.  An audio file is appended to the library as a song without
    lyrics, titled by its name without extension: the songs already
    there keep their places, the playing flag and the time are kept,
    and the selected song stays selected unless the library was empty,
    in which case the new song is.  Any other file does nothing at
    all, not even a notice. *)
Theorem add_file_appends (now : Z) (url : jsstring) (st : Coordinator.state) :
  (forall f,
      starts_with (lit "audio/") (AudioPlayer.file_type f) = true ->
      let st' := Coordinator.add_file now url (Some f) st in
      (exists song,
          songs (Coordinator.library st')
          = songs (Coordinator.library st) ++ [song]
          /\ title song = AudioPlayer.strip_extension (AudioPlayer.file_name f)
          /\ src song = url /\ lyrics song = None)
      /\ (forall j song,
             nth_error (songs (Coordinator.library st)) j = Some song ->
             nth_error (songs (Coordinator.library st')) j = Some song)
      /\ (forall song,
             Coordinator.currentSong st = Some song ->
             Coordinator.currentSong st' = Some song)
      /\ (songs (Coordinator.library st) = [] ->
          exists song,
            Coordinator.currentSong st' = Some song
            /\ title song
               = AudioPlayer.strip_extension (AudioPlayer.file_name f))
      /\ Coordinator.isPlaying st' = Coordinator.isPlaying st
      /\ Coordinator.currentTime st' = Coordinator.currentTime st)
  /\ (forall file,
         (file = None
          \/ exists f,
               file = Some f
               /\ starts_with (lit "audio/") (AudioPlayer.file_type f)
                  = false) ->
         AudioPlayer.handleFileUpload now url file = []
         /\ Coordinator.add_file now url file st = st).
Proof.
  split.
  - intros f Htype.
    unfold Coordinator.add_file, AudioPlayer.handleFileUpload.
    rewrite Htype. cbn [fold_left Coordinator.from_player].
    unfold Coordinator.handleSongAdd, Coordinator.currentSong.
    cbn [Coordinator.library Coordinator.isPlaying Coordinator.currentTime
         songs currentSongIndex].
    split; [|split; [|split; [|split; [|split]]]].
    + eexists. split; [reflexivity|]. now repeat split.
    + intros j song Hj.
      assert (Hlt : (j < length (songs (Coordinator.library st)))%nat)
        by (apply nth_error_Some; congruence).
      exact (eq_trans (nth_error_app1 _ _ Hlt) Hj).
    + intros song Hsong.
      assert (Hlen : (currentSongIndex (Coordinator.library st)
                      < length (songs (Coordinator.library st)))%nat)
        by (apply nth_error_Some; congruence).
      destruct (Nat.eqb_spec (length (songs (Coordinator.library st))) 0)
        as [Hz|_]; [lia|].
      exact (eq_trans (nth_error_app1 _ _ Hlen) Hsong).
    + intros Hnil. rewrite Hnil. cbn. eexists. split; reflexivity.
    + reflexivity.
    + reflexivity.
  - intros file [-> | (f & -> & Htype)];
      unfold Coordinator.add_file, AudioPlayer.handleFileUpload.
    + now split.
    + rewrite Htype. now split.
Qed.

Lemma add_file_appends_witness :
  (exists song,
      Coordinator.currentSong
        (Coordinator.add_file 1700000000000 (lit "blob:1")
           (Some {| AudioPlayer.file_name := lit "my.song.mp3";
                    AudioPlayer.file_type := lit "audio/mpeg" |})
           {| Coordinator.library := {| songs := []; currentSongIndex := 0 |};
              Coordinator.isPlaying := false;
              Coordinator.currentTime := of_Z 0 |})
      = Some song
      /\ title song = lit "my.song")
  /\ Coordinator.add_file 1700000000000 (lit "blob:1")
       (Some {| AudioPlayer.file_name := lit "cover.png";
                AudioPlayer.file_type := lit "image/png" |})
       {| Coordinator.library := start;
          Coordinator.isPlaying := false;
          Coordinator.currentTime := of_Z 0 |}
     = {| Coordinator.library := start;
          Coordinator.isPlaying := false;
          Coordinator.currentTime := of_Z 0 |}.
Proof.
  split.
  - destruct (proj1 (add_file_appends 1700000000000 (lit "blob:1")
                       {| Coordinator.library :=
                            {| songs := []; currentSongIndex := 0 |};
                          Coordinator.isPlaying := false;
                          Coordinator.currentTime := of_Z 0 |})
                {| AudioPlayer.file_name := lit "my.song.mp3";
                   AudioPlayer.file_type := lit "audio/mpeg" |} eq_refl)
      as (_ & _ & _ & Hempty & _).
    destruct (Hempty eq_refl) as (song & Hsong & Htitle).
    exists song. split; [exact Hsong|]. rewrite Htitle. reflexivity.
  - apply (proj2 (add_file_appends 1700000000000 (lit "blob:1")
                    {| Coordinator.library := start;
                       Coordinator.isPlaying := false;
                       Coordinator.currentTime := of_Z 0 |})).
    right. eexists. split; reflexivity.
Defined.

(** ** Moving through the library *)

Lemma next_moves (st : Coordinator.state) (p : AudioPlayer.state) :
  (S (currentSongIndex (Coordinator.library st))
   < length (songs (Coordinator.library st)))%nat ->
  Coordinator.next st p
  = Coordinator.handleSongChange
      (currentSongIndex (Coordinator.library st) + 1) st.
Proof.
  intros H. unfold Coordinator.next, AudioPlayer.handleNext.
  destruct (Z.ltb_spec
              (Z.of_nat (currentSongIndex (Coordinator.library st)))
              (Z.of_nat (length (songs (Coordinator.library st))) - 1));
    [reflexivity | lia].
Qed.

Lemma next_stops (st : Coordinator.state) (p : AudioPlayer.state) :
  (length (songs (Coordinator.library st))
   <= S (currentSongIndex (Coordinator.library st)))%nat ->
  Coordinator.next st p = st.
Proof.
  intros H. unfold Coordinator.next, AudioPlayer.handleNext.
  destruct (Z.ltb_spec
              (Z.of_nat (currentSongIndex (Coordinator.library st)))
              (Z.of_nat (length (songs (Coordinator.library st))) - 1));
    [lia | reflexivity].
Qed.

Lemma previous_moves (st : Coordinator.state) (p : AudioPlayer.state) :
  (0 < currentSongIndex (Coordinator.library st))%nat ->
  Coordinator.previous st p
  = Coordinator.handleSongChange
      (currentSongIndex (Coordinator.library st) - 1) st.
Proof.
  intros H. unfold Coordinator.previous, AudioPlayer.handlePrevious.
  destruct (Z.ltb_spec 0
              (Z.of_nat (currentSongIndex (Coordinator.library st))));
    [reflexivity | lia].
Qed.

Lemma previous_stops (st : Coordinator.state) (p : AudioPlayer.state) :
  currentSongIndex (Coordinator.library st) = 0%nat ->
  Coordinator.previous st p = st.
Proof.
  intros H. unfold Coordinator.previous, AudioPlayer.handlePrevious.
  rewrite H. reflexivity.
Qed.

(** X10.  Previous and Next keep the selection inside the library: they
    move by one song and reset the time to zero, except that Next on the
    last song and Previous on the first change nothing (there is no
    wrap-around); Previous undoes Next. *)
Theorem navigation_stays_in_range (st : Coordinator.state)
  (p p' : AudioPlayer.state) :
  (currentSongIndex (Coordinator.library st)
   < length (songs (Coordinator.library st)))%nat ->
  let i := currentSongIndex (Coordinator.library st) in
  let n := length (songs (Coordinator.library st)) in
  let after_next := Coordinator.next st p in
  let after_previous := Coordinator.previous st p in
  (currentSongIndex (Coordinator.library after_next) < n)%nat
  /\ (currentSongIndex (Coordinator.library after_previous) < n)%nat
  /\ songs (Coordinator.library after_next) = songs (Coordinator.library st)
  /\ songs (Coordinator.library after_previous)
     = songs (Coordinator.library st)
  /\ (S i = n -> after_next = st)
  /\ (i = 0%nat -> after_previous = st)
  /\ ((S i < n)%nat ->
      currentSongIndex (Coordinator.library after_next) = S i
      /\ Coordinator.currentTime after_next = of_Z 0
      /\ Coordinator.library (Coordinator.previous after_next p')
         = Coordinator.library st)
  /\ ((0 < i)%nat ->
      currentSongIndex (Coordinator.library after_previous) = (i - 1)%nat
      /\ Coordinator.currentTime after_previous = of_Z 0).
Proof.
  intros Hrange i n after_next after_previous.
  assert (Hn : (S i < n)%nat -> after_next = Coordinator.handleSongChange (i + 1) st)
    by (intros H; now apply next_moves).
  assert (Hp : (0 < i)%nat -> after_previous = Coordinator.handleSongChange (i - 1) st)
    by (intros H; now apply previous_moves).
  assert (Hn' : (n <= S i)%nat -> after_next = st)
    by (intros H; now apply next_stops).
  assert (Hp' : i = 0%nat -> after_previous = st)
    by (intros H; now apply previous_stops).
  split; [|split; [|split; [|split; [|split; [|split; [|split]]]]]].
  - destruct (Nat.lt_ge_cases (S i) n) as [H|H].
    + rewrite (Hn H). cbn. lia.
    + rewrite (Hn' H). exact Hrange.
  - destruct (Nat.eq_dec i 0) as [H|H].
    + rewrite (Hp' H). exact Hrange.
    + rewrite (Hp ltac:(lia)). cbn. fold i. lia.
  - destruct (Nat.lt_ge_cases (S i) n) as [H|H];
      [now rewrite (Hn H) | now rewrite (Hn' H)].
  - destruct (Nat.eq_dec i 0) as [H|H];
      [now rewrite (Hp' H) | now rewrite (Hp ltac:(lia))].
  - intros H. apply Hn'. lia.
  - exact Hp'.
  - intros H. rewrite (Hn H). split; [cbn; lia|]. split; [reflexivity|].
    rewrite previous_moves by (cbn; lia). cbn.
    replace (i + 1 - 1)%nat with i by lia. unfold i.
    now destruct (Coordinator.library st).
  - intros H. rewrite (Hp H). now split.
Qed.

Lemma navigation_stays_in_range_witness :
  Coordinator.next
    {| Coordinator.library := {| songs := sampleSongs; currentSongIndex := 1 |};
       Coordinator.isPlaying := true;
       Coordinator.currentTime := of_Z 42 |}
    {| AudioPlayer.isPlaying := true; AudioPlayer.currentTime := of_Z 42;
       AudioPlayer.duration := of_Z 42; AudioPlayer.volume := of_Z 1;
       AudioPlayer.isMuted := false |}
  = {| Coordinator.library := {| songs := sampleSongs; currentSongIndex := 1 |};
       Coordinator.isPlaying := true;
       Coordinator.currentTime := of_Z 42 |}.
Proof.
  set (p := {| AudioPlayer.isPlaying := true;
               AudioPlayer.currentTime := of_Z 42;
               AudioPlayer.duration := of_Z 42;
               AudioPlayer.volume := of_Z 1;
               AudioPlayer.isMuted := false |}).
  set (st := {| Coordinator.library :=
                  {| songs := sampleSongs; currentSongIndex := 1 |};
                Coordinator.isPlaying := true;
                Coordinator.currentTime := of_Z 42 |}).
  assert (Hrange : (currentSongIndex (Coordinator.library st)
                    < length (songs (Coordinator.library st)))%nat)
    by (cbn; lia).
  destruct (navigation_stays_in_range st p p Hrange)
    as (_ & _ & _ & _ & Hlast & _).
  exact (Hlast eq_refl).
Defined.

(** ** Volume and mute *)

Lemma set_volume_unit (el : AudioPlayer.audio) (v : number) :
  unit_volume v ->
  AudioPlayer.set_volume el v
  = Some {| AudioPlayer.element_currentTime :=
              AudioPlayer.element_currentTime el;
            AudioPlayer.element_volume := v |}.
Proof.
  intros (q & -> & H0 & H1). unfold AudioPlayer.set_volume.
  apply Qle_bool_iff in H0, H1. now rewrite H0, H1.
Qed.

Lemma unit_volume_zero : unit_volume (of_Z 0).
Proof. exists (inject_Z 0). repeat split; discriminate. Qed.

Lemma strict_eq_refl_unit (v : number) :
  unit_volume v -> strict_eq v v = true.
Proof. intros (q & -> & _). apply Qeq_bool_refl. Qed.

(** X11.  The volume slider and the element stay in step.  From a state
    in which the slider shows the element's volume, choosing a volume
    between 0 and 1 and toggling mute both succeed and lead to such a
    state again; choosing 0 mutes and any other volume unmutes; toggling
    mute twice restores the state. *)
Theorem volume_stays_in_sync (el : AudioPlayer.audio) (st : AudioPlayer.state) :
  volume_in_sync el st ->
  (forall v,
      unit_volume v ->
      exists st' el',
        AudioPlayer.handleVolumeChange v (Some el) st = Some (st', Some el')
        /\ volume_in_sync el' st'
        /\ AudioPlayer.volume st' = v
        /\ AudioPlayer.isMuted st' = AudioPlayer.is_zero v)
  /\ (exists st' el',
         AudioPlayer.toggleMute (Some el) st = Some (st', Some el')
         /\ volume_in_sync el' st'
         /\ AudioPlayer.isMuted st' = negb (AudioPlayer.isMuted st)
         /\ AudioPlayer.volume st' = AudioPlayer.volume st
         /\ exists el'',
             AudioPlayer.toggleMute (Some el') st' = Some (st, Some el'')
             /\ volume_in_sync el'' st).
Proof.
  intros [Hunit Hsync]. split.
  - intros v Hv. unfold AudioPlayer.handleVolumeChange.
    rewrite (set_volume_unit el v Hv).
    eexists. eexists. split; [reflexivity|].
    split; [|now split]. split; [exact Hv|].
    unfold AudioPlayer.shown_volume.
    cbn [AudioPlayer.isMuted AudioPlayer.volume AudioPlayer.element_volume].
    destruct (AudioPlayer.is_zero v) eqn:Ez.
    + destruct Hv as (q & -> & _). exact Ez.
    + now apply strict_eq_refl_unit.
  - destruct st as [pl ct du vol muted].
    cbn [AudioPlayer.volume AudioPlayer.isMuted] in *.
    unfold AudioPlayer.toggleMute. cbn [AudioPlayer.volume AudioPlayer.isMuted].
    destruct muted.
    + rewrite (set_volume_unit el vol Hunit).
      eexists. eexists. split; [reflexivity|].
      split; [split; [exact Hunit | now apply strict_eq_refl_unit]|].
      split; [reflexivity|]. split; [reflexivity|].
      cbn [AudioPlayer.isPlaying AudioPlayer.currentTime AudioPlayer.duration
           AudioPlayer.volume AudioPlayer.isMuted].
      rewrite (set_volume_unit _ (of_Z 0) unit_volume_zero).
      eexists. split; [reflexivity|]. now split.
    + rewrite (set_volume_unit el (of_Z 0) unit_volume_zero).
      eexists. eexists. split; [reflexivity|].
      split; [now split|].
      split; [reflexivity|]. split; [reflexivity|].
      cbn [AudioPlayer.isPlaying AudioPlayer.currentTime AudioPlayer.duration
           AudioPlayer.volume AudioPlayer.isMuted].
      rewrite (set_volume_unit _ vol Hunit).
      eexists. split; [reflexivity|].
      split; [exact Hunit | now apply strict_eq_refl_unit].
Qed.

Lemma volume_stays_in_sync_witness :
  exists st' el',
    AudioPlayer.handleVolumeChange (of_Z 0)
      (Some {| AudioPlayer.element_currentTime := of_Z 0;
               AudioPlayer.element_volume := of_Z 1 |})
      {| AudioPlayer.isPlaying := false; AudioPlayer.currentTime := of_Z 0;
         AudioPlayer.duration := of_Z 0; AudioPlayer.volume := of_Z 1;
         AudioPlayer.isMuted := false |}
    = Some (st', Some el')
    /\ AudioPlayer.isMuted st' = true.
Proof.
  assert (Hone : unit_volume (of_Z 1))
    by (exists (inject_Z 1); repeat split; discriminate).
  assert (Hsync :
            volume_in_sync
              {| AudioPlayer.element_currentTime := of_Z 0;
                 AudioPlayer.element_volume := of_Z 1 |}
              {| AudioPlayer.isPlaying := false;
                 AudioPlayer.currentTime := of_Z 0;
                 AudioPlayer.duration := of_Z 0;
                 AudioPlayer.volume := of_Z 1;
                 AudioPlayer.isMuted := false |})
    by (split; [exact Hone | reflexivity]).
  destruct (proj1 (volume_stays_in_sync _ _ Hsync) (of_Z 0) unit_volume_zero)
    as (st' & el' & Heq & _ & _ & Hmuted).
  exists st', el'. split; [exact Heq | exact Hmuted].
Defined.

(** ** Clicking a song of the library *)

(** X12.  A click on the selected song only toggles the playing flag:
    the selection and the playback time stay, and a second click
    restores the state.  A click on any other song selects it and
    resets the time to zero without touching the playing flag or the
    songs. *)
Theorem song_click (st : Coordinator.state) (index : nat) :
  (index = currentSongIndex (Coordinator.library st) ->
   Coordinator.library (Coordinator.click index st) = Coordinator.library st
   /\ Coordinator.currentTime (Coordinator.click index st)
      = Coordinator.currentTime st
   /\ Coordinator.isPlaying (Coordinator.click index st)
      = negb (Coordinator.isPlaying st)
   /\ Coordinator.click index (Coordinator.click index st) = st)
  /\ (index <> currentSongIndex (Coordinator.library st) ->
      currentSongIndex (Coordinator.library (Coordinator.click index st))
      = index
      /\ songs (Coordinator.library (Coordinator.click index st))
         = songs (Coordinator.library st)
      /\ Coordinator.currentTime (Coordinator.click index st) = of_Z 0
      /\ Coordinator.isPlaying (Coordinator.click index st)
         = Coordinator.isPlaying st).
Proof.
  unfold Coordinator.click, SongLibrary.handleSongClick. split.
  - intros ->. rewrite Nat.eqb_refl. cbn [Coordinator.from_library].
    repeat split.
    cbn [Coordinator.handlePlayPause Coordinator.library].
    rewrite Nat.eqb_refl. cbn [Coordinator.from_library].
    destruct st as [lib pl t]. unfold Coordinator.handlePlayPause.
    cbn [Coordinator.library Coordinator.isPlaying Coordinator.currentTime].
    now rewrite negb_involutive.
  - intros Hne.
    destruct (Nat.eqb_spec index (currentSongIndex (Coordinator.library st)))
      as [Heq|_]; [contradiction|].
    now repeat split.
Qed.

Lemma song_click_witness :
  Coordinator.currentTime
    (Coordinator.click 1
       {| Coordinator.library := start; Coordinator.isPlaying := true;
          Coordinator.currentTime := of_Z 7 |})
  = of_Z 0
  /\ Coordinator.currentTime
       (Coordinator.click 0
          {| Coordinator.library := start; Coordinator.isPlaying := true;
             Coordinator.currentTime := of_Z 7 |})
     = of_Z 7.
Proof.
  destruct (song_click
              {| Coordinator.library := start; Coordinator.isPlaying := true;
                 Coordinator.currentTime := of_Z 7 |} 1) as [_ Hother].
  destruct (song_click
              {| Coordinator.library := start; Coordinator.isPlaying := true;
                 Coordinator.currentTime := of_Z 7 |} 0) as [Hsame _].
  split.
  - apply Hother. discriminate.
  - rewrite (proj1 (proj2 (Hsame eq_refl))). reflexivity.
Defined.

(** ** Storing and finding lyrics *)

Lemma map_from_map_from {A : Type} (f g : A -> nat -> A) (a : list A) :
  forall k,
    map_from g (map_from f a k) k = map_from (fun x i => g (f x i) i) a k.
Proof.
  induction a as [|x r IH]; intros k; [reflexivity|].
  cbn [map_from]. now rewrite IH.
Qed.

Lemma map_from_ext {A B : Type} (f g : A -> nat -> B) (a : list A) :
  (forall x i, f x i = g x i) ->
  forall k, map_from f a k = map_from g a k.
Proof.
  intros H. induction a as [|x r IH]; intros k; [reflexivity|].
  cbn [map_from]. now rewrite H, IH.
Qed.

Lemma currentLyrics_updated (a : app) (l : list LyricLine) :
  (currentSongIndex a < length (songs a))%nat ->
  currentLyrics (MusicApp.handleLyricsUpdate a l) = Some l.
Proof.
  intros Hrange. unfold currentLyrics, MusicApp.handleLyricsUpdate,
    map_indexed. cbn [songs currentSongIndex].
  rewrite nth_error_map_from. cbn [Nat.add].
  destruct (nth_error (songs a) (currentSongIndex a)) as [song|] eqn:E;
    [|apply nth_error_None in E; lia].
  cbn [option_map]. now rewrite Nat.eqb_refl.
Qed.

Lemma update_without_selection (a : app) (l : list LyricLine) :
  (length (songs a) <= currentSongIndex a)%nat ->
  songs (MusicApp.handleLyricsUpdate a l) = songs a
  /\ currentLyrics (MusicApp.handleLyricsUpdate a l) = None.
Proof.
  intros Hout. unfold currentLyrics, MusicApp.handleLyricsUpdate,
    map_indexed. cbn [songs currentSongIndex].
  assert (Hgen : forall (s : list Song) k,
             (k + length s <= currentSongIndex a)%nat ->
             map_from
               (fun song index =>
                  if (index =? currentSongIndex a)%nat
                  then with_lyrics song l else song) s k = s).
  { induction s as [|x r IH]; intros k Hk; [reflexivity|].
    cbn [map_from]. cbn [length] in Hk.
    destruct (Nat.eqb_spec k (currentSongIndex a)); [lia|].
    f_equal. apply IH. lia. }
  rewrite (Hgen (songs a) 0%nat) by (cbn; lia). split; [reflexivity|].
  assert (E : nth_error (songs a) (currentSongIndex a) = None)
    by (now apply nth_error_None).
  now rewrite E.
Qed.

(** X13.  Lyrics are stored on the selected song and found there again:
    after an update the viewer receives the new sequence, a second
    update replaces the first altogether, and selecting another song
    and coming back finds the sequence still there.  With no song
    selected the update stores nothing. *)
Theorem lyrics_stored_on_selection (a : app) (l1 l2 : list LyricLine) :
  ((currentSongIndex a < length (songs a))%nat ->
   currentLyrics (MusicApp.handleLyricsUpdate a l1) = Some l1)
  /\ MusicApp.handleLyricsUpdate (MusicApp.handleLyricsUpdate a l1) l2
     = MusicApp.handleLyricsUpdate a l2
  /\ (forall (st : Coordinator.state) (other : nat),
         Coordinator.library st = a ->
         (currentSongIndex a < length (songs a))%nat ->
         other <> currentSongIndex a ->
         currentLyrics
           (Coordinator.library
              (Coordinator.handleSongChange (currentSongIndex a)
                 (Coordinator.handleSongChange other
                    (Coordinator.handleLyricsUpdate l1 st))))
         = Some l1
         /\ currentLyrics
              (Coordinator.library
                 (Coordinator.handleSongChange other
                    (Coordinator.handleLyricsUpdate l1 st)))
            = currentLyrics
                (Coordinator.library (Coordinator.handleSongChange other st)))
  /\ ((length (songs a) <= currentSongIndex a)%nat ->
      songs (MusicApp.handleLyricsUpdate a l1) = songs a
      /\ currentLyrics (MusicApp.handleLyricsUpdate a l1) = None).
Proof.
  pose proof (currentLyrics_updated a l1) as Hfound.
  split; [exact Hfound|]. split; [|split].
  - unfold MusicApp.handleLyricsUpdate, map_indexed.
    cbn [songs currentSongIndex]. f_equal.
    rewrite map_from_map_from. apply map_from_ext.
    intros song i.
    destruct (Nat.eqb_spec i (currentSongIndex a)); reflexivity.
  - intros st other Hlib Hrange Hother. split.
    + unfold Coordinator.handleSongChange, Coordinator.handleLyricsUpdate.
      cbn [Coordinator.library songs currentSongIndex]. rewrite Hlib.
      specialize (Hfound Hrange).
      unfold currentLyrics in *. cbn [songs currentSongIndex] in *.
      exact Hfound.
    + unfold Coordinator.handleSongChange, Coordinator.handleLyricsUpdate.
      cbn [Coordinator.library]. rewrite Hlib.
      unfold currentLyrics, MusicApp.handleLyricsUpdate, map_indexed.
      cbn [songs currentSongIndex].
      rewrite nth_error_map_from. cbn [Nat.add].
      destruct (nth_error (songs a) other) as [song|]; [|reflexivity].
      cbn [option_map].
      destruct (Nat.eqb_spec other (currentSongIndex a)); [contradiction|].
      reflexivity.
  - apply update_without_selection.
Qed.

Lemma lyrics_stored_on_selection_witness :
  currentLyrics (MusicApp.handleLyricsUpdate start [line_at 1 "la"])
  = Some [line_at 1 "la"]
  /\ currentLyrics
       (MusicApp.handleLyricsUpdate {| songs := []; currentSongIndex := 0 |}
          [line_at 1 "la"])
     = None.
Proof.
  split.
  - apply (proj1 (lyrics_stored_on_selection start [line_at 1 "la"] [])).
    cbn. lia.
  - apply (proj2 (proj2 (proj2 (lyrics_stored_on_selection
                                  {| songs := []; currentSongIndex := 0 |}
                                  [line_at 1 "la"] []))) ).
    cbn. lia.
Defined.

(** ** Saving and cancelling *)

Lemma blank_lines (s : jsstring) :
  blank s = forallb blank (split 10 s).
Proof.
  induction s as [|c r IH]; [reflexivity|].
  cbn [split]. destruct (N.eqb_spec c 10) as [->|Hc].
  - cbn [forallb]. unfold blank at 1 2. cbn [forallb].
    fold (blank r). now rewrite IH.
  - destruct (split 10 r) as [|h t] eqn:E.
    + unfold blank at 1. cbn [forallb]. fold (blank r). rewrite IH.
      cbn [forallb]. unfold blank. cbn [forallb]. now rewrite !andb_true_r.
    + unfold blank at 1. cbn [forallb]. fold (blank r). rewrite IH.
      cbn [forallb]. unfold blank at 2. cbn [forallb]. fold (blank h).
      apply andb_assoc.
Qed.

Lemma filter_nil_forallb {A : Type} (p : A -> bool) (l : list A) :
  filter (fun x => negb (p x)) l = [] <-> forallb p l = true.
Proof.
  induction l as [|x r IH]; [easy|].
  cbn [filter forallb]. destruct (p x); cbn [negb andb].
  - exact IH.
  - split; discriminate.
Qed.

(** X14.  The freeform parser yields no entry exactly when the buffer
    consists of whitespace only. *)
Theorem parseManual_empty_iff_blank (buffer : jsstring) :
  parseManual buffer = [] <-> blank buffer = true.
Proof.
  rewrite parseManual_entries, blank_lines. unfold retained, map_indexed.
  rewrite <- filter_nil_forallb.
  destruct (filter (fun line => negb (blank line)) (split 10 buffer));
    [easy|]. cbn [map_from]. split; discriminate.
Qed.

Lemma save_effects (st : LyricsViewer.state) :
  editMode st = true ->
  snd (handleManualEdit true st)
  = [ lyrics_update (parseManual (lyricsText st));
      toast_success (lit "Lyrics updated!") ].
Proof. intros H. unfold handleManualEdit. now rewrite H. Qed.

(** X15.  Save leaves the editor and shows a success notice in every
    case.  With a song selected it stores the parse of the buffer on
    that song, and the lyrics view is shown afterwards, also when the
    buffer was blank and the stored sequence is empty; with no song
    selected nothing is stored and the view without lyrics comes
    back. *)
Theorem save_outcome (a : app) (st : LyricsViewer.state) :
  editMode st = true ->
  let st' := fst (handleManualEdit true st) in
  let a' := save a st in
  editMode st' = false
  /\ snd (handleManualEdit true st)
     = [ lyrics_update (parseManual (lyricsText st));
         toast_success (lit "Lyrics updated!") ]
  /\ ((currentSongIndex a < length (songs a))%nat ->
      currentLyrics a' = Some (parseManual (lyricsText st))
      /\ rendered (currentLyrics a') st' = lyrics_screen)
  /\ ((length (songs a) <= currentSongIndex a)%nat ->
      songs a' = songs a
      /\ rendered (currentLyrics a') st' = no_lyrics_screen).
Proof.
  intros Hedit st' a'.
  assert (Hst : editMode st' = false).
  { unfold st', handleManualEdit. cbn [fst editMode]. now rewrite Hedit. }
  assert (Ha : a' = MusicApp.handleLyricsUpdate a (parseManual (lyricsText st))).
  { unfold a', save. now rewrite (save_effects st Hedit). }
  split; [exact Hst|]. split; [exact (save_effects st Hedit)|].
  pose proof (currentLyrics_updated a (parseManual (lyricsText st)))
    as Hfound.
  pose proof (update_without_selection a (parseManual (lyricsText st)))
    as Hnone.
  split.
  - intros Hrange. rewrite Ha, (Hfound Hrange). split; [reflexivity|].
    unfold rendered. now rewrite Hst.
  - intros Hout. rewrite Ha. destruct (Hnone Hout) as [Hsongs Hlyr].
    split; [exact Hsongs|]. unfold rendered. now rewrite Hlyr, Hst.
Qed.

Lemma parseManual_empty_iff_blank_witness :
  blank (lit "  " ++ [10%N; 9%N]) = true
  /\ parseManual (lit "  " ++ [10%N; 9%N]) = [].
Proof.
  split; [reflexivity|].
  apply (proj2 (parseManual_empty_iff_blank (lit "  " ++ [10%N; 9%N]))).
  reflexivity.
Defined.

Lemma save_outcome_witness :
  editMode editing_blank = true
  /\ currentLyrics (save start editing_blank) = Some []
  /\ rendered (currentLyrics (save start editing_blank))
       (fst (handleManualEdit true editing_blank))
     = lyrics_screen.
Proof.
  destruct (save_outcome start editing_blank eq_refl)
    as (_ & _ & Hsel & _).
  assert (Hrange : (currentSongIndex start < length (songs start))%nat)
    by (cbn; lia).
  destruct (Hsel Hrange) as [Hlyr Hview].
  split; [reflexivity|]. split; [rewrite Hlyr; reflexivity | exact Hview].
Defined.

(** X16.  Cancel stores nothing and shows no notice; it keeps the typed
    text, so that with no lyrics stored, opening the editor again shows
    the text that was cancelled.  The Edit button of the lyrics view
    always starts from the stored lyrics instead. *)
Theorem cancel_keeps_buffer (hook : bool) (typed : jsstring)
  (st : LyricsViewer.state) (stored : option (list LyricLine)) :
  let cancelled := handleCancel (handleType typed st) in
  rendered stored cancelled
  = match stored with Some _ => lyrics_screen | None => no_lyrics_screen end
  /\ handleManualEdit hook cancelled
     = ({| editMode := true; lyricsText := typed;
           currentLineIndex := currentLineIndex st |}, [])
  /\ lyricsText (handleEditClick stored cancelled) = editBuffer stored.
Proof.
  intros cancelled. unfold cancelled, handleCancel, handleType. split.
  - unfold rendered. cbn [editMode]. now destruct stored.
  - now split.
Qed.

Lemma cancel_keeps_buffer_witness :
  lyricsText
    (fst (handleManualEdit true
            (handleCancel (handleType (lit "la la") editing_blank))))
  = lit "la la".
Proof.
  now rewrite (proj1 (proj2 (cancel_keeps_buffer true (lit "la la")
                               editing_blank None))).
Defined.

(** ** Lyrics without times *)

Lemma untimed_entry (index : nat) (line : jsstring) :
  untimed line ->
  freeform_entry index line
  = {| time := Fin (Qred (inject_Z (Z.of_nat index) * inject_Z 3));
       text := trim line |}.
Proof.
  intros H. unfold freeform_entry. now rewrite (split_free 124 line H).
Qed.

Lemma untimed_nth (buffer : jsstring) (j : nat) (e : LyricLine) :
  Forall untimed (retained buffer) ->
  nth_error (parseManual buffer) j = Some e ->
  time e = Fin (Qred (inject_Z (Z.of_nat j) * inject_Z 3)).
Proof.
  intros Hall He. rewrite parseManual_nth in He.
  destruct (nth_error (retained buffer) j) as [line|] eqn:E; [|discriminate].
  cbn [option_map] in He. injection He as <-.
  rewrite Forall_forall in Hall.
  now rewrite (untimed_entry j line (Hall line (nth_error_In _ _ E))).
Qed.

(** X17.  Lyrics typed without any time advance one line every three
    seconds: when no retained line holds a [|], the active line at a
    time [t >= 0] is line [floor (t / 3)], and the last line once the
    lines are used up. *)
Theorem untimed_lyrics_pace (buffer : jsstring) (t : Q) :
  Forall untimed (retained buffer) ->
  retained buffer <> [] ->
  (0 <= t)%Q ->
  activeIndex (parseManual buffer) (Fin t)
  = Z.min (Qfloor (t / 3)) (Z.of_nat (length (retained buffer)) - 1).
Proof.
  intros Hall Hne Ht.
  set (n := length (retained buffer)).
  assert (Hn : (0 < n)%nat)
    by (unfold n; destruct (retained buffer); [congruence | cbn; lia]).
  set (F := Qfloor (t / 3)).
  pose proof (Qfloor_le (t / 3)) as Hlo. pose proof (Qlt_floor (t / 3)) as Hhi.
  fold F in Hlo, Hhi. rewrite inject_Z_plus in Hhi.
  change (inject_Z 1) with 1%Q in Hhi.
  unfold Qdiv in Hlo, Hhi. change (/ 3)%Q with (1 # 3)%Q in Hlo, Hhi.
  assert (HF : (0 <= F)%Z).
  { unfold F. rewrite <- (Qfloor_Z 0). apply Qfloor_resp_le.
    change (inject_Z 0) with 0%Q. unfold Qdiv.
    change (/ 3)%Q with (1 # 3)%Q. lra. }
  assert (Hlen : length (parseManual buffer) = n)
    by (rewrite parseManual_entries; apply length_map_from).
  set (i := Z.to_nat (Z.min F (Z.of_nat n - 1))).
  replace (Z.min F (Z.of_nat n - 1)) with (Z.of_nat i) by (unfold i; lia).
  apply started_up_to_active. split; [rewrite Hlen; unfold i; lia|]. split.
  - intros j e Hj He. rewrite (untimed_nth buffer j e Hall He).
    cbn [ge]. apply Qle_bool_iff. rewrite Qred_correct.
    assert (Hjz : (Z.of_nat j <= F)%Z) by (unfold i in Hj; lia).
    rewrite Zle_Qle in Hjz. change (inject_Z 3) with 3%Q. lra.
  - intros j e Hj He. rewrite (untimed_nth buffer j e Hall He).
    cbn [lt]. apply negb_true_iff.
    destruct (Qle_bool (Qred (inject_Z (Z.of_nat j) * inject_Z 3)) t) eqn:E;
      [|reflexivity].
    apply Qle_bool_iff in E. rewrite Qred_correct in E.
    assert (Hjn : (j < n)%nat)
      by (rewrite <- Hlen; apply nth_error_Some; congruence).
    assert (Hjz : (F + 1 <= Z.of_nat j)%Z) by (unfold i in Hj; lia).
    rewrite Zle_Qle, inject_Z_plus in Hjz.
    change (inject_Z 1) with 1%Q in Hjz.
    change (inject_Z 3) with 3%Q in E. lra.
Qed.

Lemma untimed_lyrics_pace_witness :
  Forall untimed (retained plain_lyrics)
  /\ activeIndex (parseManual plain_lyrics) (Fin (7 # 2)) = 1%Z
  /\ activeIndex (parseManual plain_lyrics) (Fin 100) = 2%Z.
Proof.
  assert (Hall : Forall untimed (retained plain_lyrics))
    by (repeat constructor).
  assert (Hne : retained plain_lyrics <> []) by discriminate.
  split; [exact Hall|]. split.
  - rewrite (untimed_lyrics_pace plain_lyrics (7 # 2) Hall Hne);
      [reflexivity | discriminate].
  - rewrite (untimed_lyrics_pace plain_lyrics 100 Hall Hne);
      [reflexivity | discriminate].
Defined.

(** ** The highlight over time *)

Lemma findIndex_from_range {A : Type} (p : A -> nat -> bool) (a : list A) :
  forall k,
    findIndex_from p a k = (-1)%Z
    \/ exists j, (j < length a)%nat
                 /\ findIndex_from p a k = Z.of_nat (k + j).
Proof.
  induction a as [|x r IH]; intros k; [now left|].
  cbn [findIndex_from]. destruct (p x k).
  - right. exists 0%nat. split; [cbn; lia | f_equal; lia].
  - destruct (IH (S k)) as [H | (j & Hj & H)]; [now left|].
    right. exists (S j). split; [cbn; lia|]. rewrite H. f_equal. lia.
Qed.

Lemma activeIndex_range (lyrics : list LyricLine) (t : number) :
  activeIndex lyrics t = (-1)%Z
  \/ exists i, (i < length lyrics)%nat /\ activeIndex lyrics t = Z.of_nat i.
Proof.
  unfold activeIndex, findIndex.
  destruct (findIndex_from_range (is_active lyrics t) lyrics 0)
    as [H | (j & Hj & H)]; [now left|].
  right. now exists j.
Qed.

(** X18.  In a sequence in time order the highlight never moves back as
    the time advances: a later time gives the same or a later active
    index. *)
Theorem active_line_monotone (lyrics : list LyricLine) (t1 t2 : number) :
  ascending lyrics -> ge t2 t1 = true ->
  (activeIndex lyrics t1 <= activeIndex lyrics t2)%Z.
Proof.
  intros Hasc Hge.
  destruct (activeIndex_range lyrics t1) as [H1 | (i1 & Hi1 & H1)].
  - rewrite H1.
    destruct (activeIndex_range lyrics t2) as [H2 | (i2 & _ & H2)];
      rewrite H2; lia.
  - pose proof H1 as H1'.
    apply (active_started_up_to lyrics t1 i1 Hasc) in H1'.
    destruct H1' as (_ & Hdone1 & _).
    destruct (nth_error lyrics 0) as [first|] eqn:E0;
      [|apply nth_error_None in E0; lia].
    assert (Hfirst : ge t2 (time first) = true).
    { eapply ge_trans; [exact Hge|]. apply (Hdone1 0%nat first); [lia|exact E0]. }
    destruct (started_somewhere lyrics t2 Hasc first E0 Hfirst) as [i2 Hi2].
    rewrite H1, (started_up_to_active lyrics t2 i2 Hi2).
    destruct Hi2 as (_ & _ & Hnot2).
    destruct (Nat.le_gt_cases i1 i2) as [Hle|Hgt]; [lia|].
    exfalso.
    destruct (nth_error lyrics i1) as [e|] eqn:E1;
      [|apply nth_error_None in E1; lia].
    pose proof (Hnot2 i1 e Hgt E1) as Hlt.
    assert (Hge2 : ge t2 (time e) = true).
    { eapply ge_trans; [exact Hge|]. apply (Hdone1 i1 e); [lia | exact E1]. }
    rewrite (ge_not_lt _ _ Hge2) in Hlt. discriminate.
Qed.

Lemma active_line_monotone_witness :
  ascending three_lines
  /\ (activeIndex three_lines (of_Z 4) <= activeIndex three_lines (of_Z 6))%Z.
Proof.
  assert (H : ascending three_lines) by (repeat constructor).
  split; [exact H|].
  exact (active_line_monotone three_lines (of_Z 4) (of_Z 6) H eq_refl).
Defined.

(** ** An LRC file without tags *)

(** X19.  The LRC parser yields no entry exactly when no line of the
    input holds a tag. *)
Theorem parseLRCFile_empty_iff_untagged (content : jsstring) :
  parseLRCFile content = []
  <-> forall line, In line (split 10 content) ->
                   forall k, ~ has_tag_at line k.
Proof.
  rewrite parseLRCFile_lines. split.
  - intros Hnil line Hline k Htag.
    assert (Hflat : flat_map (fun l => option_list (lrc_entry l))
                      (split 10 content) = []).
    { apply Permutation_nil. rewrite <- Hnil. apply sort_perm. }
    pose proof (lrc_entry_yields line) as Hy.
    destruct (lrc_entry line) as [e|] eqn:E.
    + assert (Hin : In e (flat_map (fun l => option_list (lrc_entry l))
                            (split 10 content))).
      { apply in_flat_map. exists line. split; [exact Hline|].
        rewrite E. now left. }
      now rewrite Hflat in Hin.
    + exact (Hy k Htag).
  - intros Hno.
    assert (Hflat : flat_map (fun l => option_list (lrc_entry l))
                      (split 10 content) = []).
    { induction (split 10 content) as [|l r IH]; [reflexivity|].
      cbn [flat_map]. rewrite (no_tag_no_entry l (Hno l (or_introl eq_refl))).
      apply IH. intros line Hline. apply Hno. now right. }
    now rewrite Hflat.
Qed.

Lemma parseLRCFile_empty_iff_untagged_witness :
  parseLRCFile (lit "[ar: someone]" ++ [10%N] ++ lit "[0:01.00]short") = []
  /\ ~ has_tag_at (lit "[0:01.00]short") 0.
Proof.
  assert (H : parseLRCFile
                (lit "[ar: someone]" ++ [10%N] ++ lit "[0:01.00]short") = [])
    by reflexivity.
  split; [exact H|].
  apply (proj1 (parseLRCFile_empty_iff_untagged _) H).
  right. left. reflexivity.
Defined.
